(** * The vector space model notebook (jan28-lsi/jan28-vector-spaces.ipynb)

    A shallow embedding of the notebook's functions: [build_lexicon],
    [build_inverted_index], [build_termdoc_matrix], [distance],
    [build_vector], [get_postings] and [search], together with the parts
    of the Python 2 / numpy run time they rely on (str.split, list.index,
    defaultdict, set, sorted, float64 arithmetic).

    Documents and terms are Python 2 byte strings ([string]); document
    identifiers are positions in the collection ([nat]); numpy floats are
    IEEE binary64 values ([spec_float] at precision 53). *)

From Stdlib Require Import ZArith NArith Ascii String Sorted Permutation.
From Stdlib Require Import Floats.SpecFloat.
From stdpp Require Import base option list sorting gmap strings.

Open Scope string_scope.
Open Scope nat_scope.
Open Scope list_scope.

(** ** Exceptions *)

(** The Python exceptions the modelled code can raise. *)
Inductive exn : Set :=
| ValueError
| IndexError
| TypeError.

Inductive result (A : Type) : Type :=
| Ok (a : A)
| Raise (e : exn).
Arguments Ok {A} a.
Arguments Raise {A} e.

#[global] Instance result_ret : MRet result := λ A a, Ok a.
#[global] Instance result_bind : MBind result := λ A B f m,
  match m with
  | Ok a => f a
  | Raise e => Raise e
  end.

(** [for x in xs: acc = body(x, acc)], stopping at the first exception. *)
Fixpoint forM {A S : Type} (body : A → S → result S) (xs : list A) (acc : S)
  : result S :=
  match xs with
  | [] => Ok acc
  | x :: xs' => acc' ← body x acc; forM body xs' acc'
  end.

(** [[f(x) for x in xs]], stopping at the first exception. *)
Fixpoint mapM_result {A B : Type} (f : A → result B) (xs : list A)
  : result (list B) :=
  match xs with
  | [] => Ok []
  | x :: xs' => y ← f x; ys ← mapM_result f xs'; Ok (y :: ys)
  end.

(** ** Python strings *)

Module PyStr.

(** The bytes [str.split()] treats as separators: space, \t, \n, \v, \f, \r. *)
Definition is_space (c : ascii) : bool :=
  let n := nat_of_ascii c in
  (n =? 32)%nat || ((9 <=? n)%nat && (n <=? 13)%nat).

(** [s.split()]: [tok] is the token being read ([""] between tokens). *)
Fixpoint split_from (tok : string) (s : string) : list string :=
  match s with
  | EmptyString => if String.eqb tok "" then [] else [tok]
  | String c s' =>
      if is_space c
      then (if String.eqb tok "" then split_from "" s'
            else tok :: split_from "" s')
      else split_from (tok ++ String c "")%string s'
  end.

Definition split (s : string) : list string := split_from "" s.

(** [sub in s] for two strings: [sub] occurs in [s] as a substring. *)
Fixpoint contains (s sub : string) : bool :=
  String.prefix sub s ||
  match s with
  | EmptyString => false
  | String _ s' => contains s' sub
  end.

(** Byte-wise lexicographic order, as used by [<] on str. *)
Definition lt (a b : string) : Prop := String.compare a b = Lt.

End PyStr.

(** ** Python lists *)

Module PyList.

(** [x in l] for a list of strings. *)
Definition mem (x : string) (l : list string) : bool :=
  existsb (String.eqb x) l.

(** [l.index(x)]: the first position holding [x]; ValueError if none. *)
Fixpoint index_from (n : nat) (x : string) (l : list string) : result nat :=
  match l with
  | [] => Raise ValueError
  | y :: l' => if String.eqb y x then Ok n else index_from (S n) x l'
  end.

Definition index (l : list string) (x : string) : result nat :=
  index_from 0 x l.

End PyList.

(** ** numpy arrays of strings *)

Module Np.

(** An element read from an array of byte strings. numpy keeps the strings
    of an array at one width, the shorter ones padded with NUL bytes, and
    drops every NUL byte at the end of an element it hands out, those the
    string itself ended in included. *)
Fixpoint item (s : string) : string :=
  match s with
  | EmptyString => EmptyString
  | String c s' =>
      match item s' with
      | EmptyString =>
          if Ascii.eqb c Ascii.zero then EmptyString else String c EmptyString
      | r => String c r
      end
  end.

(** [np.array(l)] for a list of strings [l], kept as the list of the
    elements that iterating over the array, or [list(a)], yields. *)
Definition array (l : list string) : list string := map item l.

(** [a == None] on an array compares element by element, and no string is
    [None]. *)
Definition eq_none (a : list string) : list bool := map (λ _, false) a.

(** [if a:] on an array of booleans: with more than one element numpy
    raises ValueError (the truth value is ambiguous). *)
Definition truth (a : list bool) : result bool :=
  match a with
  | [] => Ok false
  | [b] => Ok b
  | _ => Raise ValueError
  end.

Fixpoint insert (x : string) (l : list string) : list string :=
  match l with
  | [] => [x]
  | y :: l' => if String.leb x y then x :: l else y :: insert x l'
  end.

(** [sort(l)] makes an array of the list and returns its elements in
    ascending order. *)
Definition sort (l : list string) : list string := foldr insert [] (array l).

End Np.

(** ** build_lexicon *)

(** The body of the inner loop: [if t not in lexicon: lexicon.append(t)]. *)
Definition lexicon_add (t : string) (lexicon : list string) : list string :=
  if PyList.mem t lexicon then lexicon else lexicon ++ [t].

Definition build_lexicon (docs : list string) : list string :=
  let lexicon :=
    foldl (λ lexicon d, foldl (λ lexicon t, lexicon_add t lexicon)
                              lexicon (PyStr.split d))
          [] docs in
  Np.sort lexicon.

(** The collection the notebook indexes and searches. *)
Definition documents : list string :=
  [ "The dog and cat ran very very fast"; "The cat sat very still";
    "The gazelle ran fast"; "very cat"; "The lion was still";
    "very"; "The dog ate the gazelle" ].

(** ** defaultdict(list) *)

Module DefaultDict.

(** [index[k]]: a missing key is first bound to the default [[]]; the
    second component is the dictionary after the access. *)
Definition getitem (k : string) (d : gmap string (list nat))
  : list nat * gmap string (list nat) :=
  match d !! k with
  | Some v => (v, d)
  | None => ([], <[k := []]> d)
  end.

(** [index[k].append(x)]. *)
Definition append (k : string) (x : nat) (d : gmap string (list nat))
  : gmap string (list nat) :=
  let '(v, d') := getitem k d in <[k := v ++ [x]]> d'.

End DefaultDict.

(** ** build_inverted_index *)

(** The body of the inner loop, for one [term] and one document [d]. *)
Definition index_document (documents : list string) (term d : string)
    (index : gmap string (list nat)) : result (gmap string (list nat)) :=
  if PyList.mem term (PyStr.split d)
  then i ← PyList.index documents d;
       Ok (DefaultDict.append term i index)
  else Ok index.

Definition build_inverted_index (documents : list string)
  : result (gmap string (list nat)) :=
  let lexicon := build_lexicon documents in
  forM (λ term index,
          forM (index_document documents term) documents (<[term := []]> index))
       lexicon ∅.

(** ** numpy float64 and arrays *)

Module F64.

Definition prec : Z := 53.
Definition emax : Z := 1024.

Definition zero : spec_float := S754_zero false.
Definition one : spec_float := S754_finite false 4503599627370496 (-52).

Definition add := SFadd prec emax.
Definition mul := SFmul prec emax.
Definition div := SFdiv prec emax.
Definition sqrt := SFsqrt prec emax.
Definition ltb := SFltb.
Definition leb := SFleb.
Definition eqb := SFeqb.

(** [x == 0.0], for a value that is not compared but inspected. *)
Definition is_zero (x : spec_float) : bool :=
  match x with
  | S754_zero _ => true
  | _ => false
  end.

Definition is_nan (x : spec_float) : bool :=
  match x with
  | S754_nan => true
  | _ => false
  end.

(** Neither NaN nor an infinity. *)
Definition is_finite (x : spec_float) : bool :=
  match x with
  | S754_zero _ | S754_finite _ _ _ => true
  | _ => false
  end.

End F64.

(** A two-dimensional float array; every row has [ncols] entries. *)
Record ndarray2 : Type := { ncols : nat; rows : list (list spec_float) }.

Module Np2.

(** [np.zeros((nrows, ncols))]. *)
Definition zeros (nrows ncols : nat) : ndarray2 :=
  {| ncols := ncols; rows := replicate nrows (replicate ncols F64.zero) |}.

(** [m[i, j] = v]. *)
Definition setitem (m : ndarray2) (i j : nat) (v : spec_float)
  : result ndarray2 :=
  if (i <? length (rows m))%nat && (j <? ncols m)%nat
  then Ok {| ncols := ncols m; rows := alter (<[j := v]>) i (rows m) |}
  else Raise IndexError.

(** [m[:, c]]. *)
Definition column (m : ndarray2) (c : nat) : result (list spec_float) :=
  if (c <? ncols m)%nat
  then Ok (map (λ r, default F64.zero (r !! c)) (rows m))
  else Raise IndexError.

(** [m[i, j]] for reading, [None] out of range. *)
Definition entry (m : ndarray2) (i j : nat) : option spec_float :=
  r ← rows m !! i; r !! j.

(** [np.dot(v, w)] on one-dimensional arrays. *)
Definition dot (v w : list spec_float) : result spec_float :=
  if (length v =? length w)%nat
  then Ok (foldl F64.add F64.zero (zip_with F64.mul v w))
  else Raise ValueError.

(** [np.linalg.norm(v)]: the square root of the sum of the squares. *)
Definition norm (v : list spec_float) : spec_float :=
  F64.sqrt (foldl F64.add F64.zero (zip_with F64.mul v v)).

End Np2.

(** ** build_termdoc_matrix *)

(** The body of the inner loop. [term in d] tests [d], the text of the
    document, so it is a substring test. *)
Definition mark_document (documents lexicon : list string) (term d : string)
    (termdoc_matrix : ndarray2) : result ndarray2 :=
  term_idx ← PyList.index lexicon term;
  doc_idx ← PyList.index documents d;
  if PyStr.contains d term
  then Np2.setitem termdoc_matrix term_idx doc_idx F64.one
  else Ok termdoc_matrix.

(** A supplied [lexicon] is an array of strings, such as [build_lexicon]
    returns. [lexicon == None] is [True] for the default [None]; for an
    array it is the array of the comparisons of its elements, of which [if]
    takes the truth value. *)
Definition build_termdoc_matrix (documents : list string)
    (lexicon : option (list string)) : result ndarray2 :=
  lexicon ← match lexicon with
            | None => Ok (build_lexicon documents)
            | Some a =>
                is_none ← Np.truth (Np.eq_none a);
                Ok (if is_none : bool then build_lexicon documents
                    else Np.array a)
            end;
  let nrows := length lexicon in
  let ncols := length documents in
  forM (λ term termdoc_matrix,
          forM (mark_document documents lexicon term) documents termdoc_matrix)
       lexicon (Np2.zeros nrows ncols).

(** ** distance *)

(** Dividing one numpy float64 by another never raises: a zero divisor
    gives an infinity or NaN (with a RuntimeWarning on stderr). *)
Definition distance (doc1 doc2 : list spec_float) : result spec_float :=
  d ← Np2.dot doc1 doc2;
  Ok (F64.div d (F64.mul (Np2.norm doc1) (Np2.norm doc2))).

(** ** build_vector *)

(** [vec[np.where(lexicon == part)] = 1]. [lexicon == part] compares each
    element of the array with [part] as strings of one width, so NUL bytes
    at the end of either do not count. *)
Definition mark (lexicon : list string) (part : string)
    (vec : list spec_float) : list spec_float :=
  zip_with (λ t v, if String.eqb (Np.item t) (Np.item part) then F64.one
                   else v) lexicon vec.

Definition build_vector (query : string) (lexicon : list string)
  : list spec_float :=
  let vec := replicate (length lexicon) F64.zero in
  let parts := PyStr.split query in
  foldl (λ vec part, mark lexicon part vec) vec parts.

(** ** Python sets of document identifiers *)

(** CPython's set: an open-addressing hash table whose iteration order is
    the order of its slots. The hash of a non-negative int is the int, and
    nothing is ever deleted here, so every slot is empty or active. *)
Record pyset : Type := { table : list (option nat) }.

Module PySet.

Definition MINSIZE : nat := 8.
Definition PERTURB_SHIFT : N := 5.

(** [set()]. *)
Definition empty : pyset := {| table := replicate MINSIZE None |}.

(** The active keys in slot order: what iterating over the set yields. *)
Definition keys (s : pyset) : list nat := omap id (table s).

Definition used (s : pyset) : nat := length (keys s).

(** [k in s]: the lookup is represented by its outcome. *)
Definition contains (k : nat) (s : pyset) : bool :=
  existsb (Nat.eqb k) (keys s).

(** The probe sequence of [set_insert_clean]: slot [i & mask], then
    [i = 5*i + perturb + 1] with [perturb] shifted right each round. *)
Fixpoint probe (fuel : nat) (tbl : list (option nat)) (i perturb : N)
  : option nat :=
  let slot := N.to_nat (N.land i (N.of_nat (length tbl) - 1)) in
  match tbl !! slot with
  | Some None => Some slot
  | _ =>
      match fuel with
      | O => None
      | S fuel' =>
          probe fuel' tbl (N.shiftl i 2 + i + perturb + 1)
                (N.shiftr perturb PERTURB_SHIFT)
      end
  end.

Fixpoint first_empty (tbl : list (option nat)) : option nat :=
  match tbl with
  | [] => None
  | None :: _ => Some O
  | Some _ :: tbl' => S <$> first_empty tbl'
  end.

(** The slot a new key goes to. The probe is cut off after more rounds
    than the sequence needs to visit every slot; the scan that follows
    keeps the function total. *)
Definition free_slot (tbl : list (option nat)) (hash : N) : option nat :=
  let mask := (N.of_nat (length tbl) - 1)%N in
  match probe (length tbl + N.size_nat hash + 1) tbl (N.land hash mask) hash with
  | Some slot => Some slot
  | None => first_empty tbl
  end.

Definition insert_clean (k : nat) (tbl : list (option nat))
  : list (option nat) :=
  match free_slot tbl (N.of_nat k) with
  | Some slot => <[slot := Some k]> tbl
  | None => tbl
  end.

(** [for (newsize = MINSIZE; newsize <= minused; newsize <<= 1);] *)
Fixpoint grow (fuel : nat) (newsize minused : nat) : nat :=
  if (newsize <=? minused)%nat
  then match fuel with
       | O => newsize
       | S fuel' => grow fuel' (2 * newsize) minused
       end
  else newsize.

Definition table_resize (s : pyset) (minused : nat) : pyset :=
  let newsize := grow minused MINSIZE minused in
  {| table := foldl (λ tbl k, insert_clean k tbl)
                    (replicate newsize None) (keys s) |}.

Definition insert_key (k : nat) (s : pyset) : pyset :=
  if contains k s then s else {| table := insert_clean k (table s) |}.

(** [set_add_key]: insert, then resize once the table is two thirds full. *)
Definition add_key (k : nat) (s : pyset) : pyset :=
  let n_used := used s in
  let s' := insert_key k s in
  if (n_used <? used s')%nat && (length (table s') * 2 <=? used s' * 3)%nat
  then table_resize s'
         (if (50000 <? N.of_nat (used s'))%N then used s' * 2 else used s' * 4)
  else s'.

(** [set(l)]. *)
Definition of_list (l : list nat) : pyset :=
  foldl (λ s k, add_key k s) empty l.

(** [set_merge]. *)
Definition merge (so other : pyset) : pyset :=
  if (used other =? 0)%nat then so
  else
    let so :=
      if (length (table so) * 2 <=? (used so + used other) * 3)%nat
      then table_resize so ((used so + used other) * 2)
      else so in
    foldl (λ s k, insert_key k s) so (keys other).

Definition copy (so : pyset) : pyset := merge empty so.

(** [set_intersection]: walk the smaller set, keep what the other holds. *)
Definition intersection (so other : pyset) : pyset :=
  let '(so, other) :=
    if (used so <? used other)%nat then (other, so) else (so, other) in
  foldl (λ result k, if contains k so then add_key k result else result)
        empty (keys other).

(** [set.intersection] applied to [so] and the remaining sets [args]. *)
Definition intersection_multi (so : pyset) (args : list pyset) : pyset :=
  match args with
  | [] => copy so
  | _ => foldl intersection so args
  end.

(** [list(s)]. *)
Definition to_list (s : pyset) : list nat := keys s.

End PySet.

(** ** sorted *)

Module PySorted.

Section Sort.
Context {A K : Type} (lt : K → K → bool).

(** One step of the stable ascending sort on (key, value) pairs: the new
    pair goes in front of the first pair with a greater key. Where [<]
    orders the keys, every stable sort returns the list this one returns. *)
Fixpoint insert (x : K * A) (l : list (K * A)) : list (K * A) :=
  match l with
  | [] => [x]
  | y :: l' => if lt x.1 y.1 then x :: l else y :: insert x l'
  end.

Definition stable_sort (l : list (K * A)) : list (K * A) :=
  foldl (λ acc x, insert x acc) [] l.

(** [sorted(l, key=key, reverse=reverse)]: the keys are computed first;
    a reverse sort reverses, sorts ascending and reverses again. *)
Definition sorted (l : list A) (key : A → result K) (reverse : bool)
  : result (list A) :=
  ks ← mapM_result key l;
  let dec := zip ks l in
  let dec := if reverse then rev dec else dec in
  let dec := stable_sort dec in
  let dec := if reverse then rev dec else dec in
  Ok (dec.*2).
End Sort.

End PySorted.

(** ** get_postings *)

(** The list comprehension [[index[part] for part in query_parts]]. *)
Definition lookup_postings (query_parts : list string)
    (index : gmap string (list nat))
  : list (list nat) * gmap string (list nat) :=
  foldl (λ '(acc, index) part,
           let '(v, index') := DefaultDict.getitem part index in
           (acc ++ [v], index'))
        ([], index) query_parts.

(** The second component is the caller's [index] after the call. *)
Definition get_postings (query : string) (docs : list string)
    (index : option (gmap string (list nat)))
  : result (pyset * option (gmap string (list nat))) :=
  let query_parts := PyStr.split query in
  match query_parts with
  | [] => Ok (PySet.empty, index)
  | _ =>
      idx ← match index with
            | None => build_inverted_index docs
            | Some idx => Ok idx
            end;
      let '(individual_postings, idx') := lookup_postings query_parts idx in
      match map PySet.of_list individual_postings with
      | [] => Raise TypeError
      | so :: args =>
          Ok (PySet.intersection_multi so args, (λ _, idx') <$> index)
      end
  end.

(** ** search *)

(** Modelled from the spec: [get_hits], which [search] calls, is not defined
    in the notebook. The spec's Search Orchestrator takes as candidates the
    intersection of the postings of the query terms, which is what
    [get_postings] returns. *)
Definition get_hits := get_postings.

(** [search] reads the global [documents], here its first argument; the
    second component of the outcome is [index] after the call. *)
Definition search (documents : list string) (query : string)
    (lexicon : list string) (index : gmap string (list nat))
    (tdmat : ndarray2) : result (list nat * gmap string (list nat)) :=
  let vec := build_vector query lexicon in
  '(candidates, index') ← get_hits query documents (Some index);
  let key := λ w, col ← Np2.column tdmat w; distance vec col in
  _ ← mapM_result key (PySet.to_list candidates);
  results ← PySorted.sorted F64.ltb (PySet.to_list candidates) key true;
  Ok (results, default index index').

(** Everything built from one collection, then one query. *)
Definition run_search (docs : list string) (query : string)
  : result (list nat * gmap string (list nat)) :=
  let lexicon := build_lexicon docs in
  index ← build_inverted_index docs;
  td_matrix ← build_termdoc_matrix docs None;
  search docs query lexicon index td_matrix.

(** ** Specification vocabulary *)

(** The position [l.index(x)] returns when it returns. *)
Definition position (l : list string) (x : string) : nat :=
  match PyList.index l x with
  | Ok i => i
  | Raise _ => 0
  end.

(** The postings the code collects for [term] over the documents [ds]. *)
Definition postings (documents ds : list string) (term : string) : list nat :=
  map (position documents)
      (filter (λ d, PyList.mem term (PyStr.split d) = true) ds).

(** The shape of a matrix: [nr] rows of [nc] entries each. *)
Definition shaped (nr nc : nat) (m : ndarray2) : Prop :=
  ncols m = nc ∧ length (rows m) = nr ∧ Forall (λ r, length r = nc) (rows m).

(** A string without separator bytes. *)
Definition unspaced (t : string) : Prop :=
  Forall (λ c, PyStr.is_space c = false) (list_ascii_of_string t).

(** A vector all of whose entries are zero (of either sign). *)
Definition zero_vector (v : list spec_float) : Prop :=
  forallb F64.is_zero v = true.

(** The invariant of a set: no key twice, and fewer than two thirds of the
    slots in use. *)
Definition set_wf (s : pyset) : Prop :=
  NoDup (PySet.keys s) ∧ PySet.used s * 3 < length (table s) * 2.

(** [a] comes before [b] in [l]. *)
Definition precedes {A : Type} (l : list A) (a b : A) : Prop :=
  ∃ l1 l2 l3, l = l1 ++ a :: l2 ++ b :: l3.

(** The sort key of [search] for candidate [w]: the cosine similarity of the
    query vector and column [w] (NaN stands in where the key raises). *)
Definition similarity (vec : list spec_float) (tdmat : ndarray2) (w : nat)
  : spec_float :=
  match col ← Np2.column tdmat w; distance vec col with
  | Ok k => k
  | Raise _ => S754_nan
  end.

(** Nine documents in which only those at positions 1 and 8 have the
    token "a", each next to one other token. *)
Definition tie_corpus : list string :=
  ["d"; "a b"; "e"; "f"; "g"; "h"; "i"; "j"; "a c"].

(** The float64 of the whole number [p], for [p] below [2^53]. *)
Definition float_of_pos (p : positive) : spec_float :=
  S754_finite false (Pos.shiftl p (Z.to_N (53 - Z.pos (Pos.size p))))
              (Z.pos (Pos.size p) - 53).

(** [2^53], where adding 1.0 no longer changes a float64. *)
Definition float_top : spec_float := S754_finite false 4503599627370496 1.

(** The values a sum of ones and zeros can take. *)
Definition counted (x : spec_float) : Prop :=
  x = F64.zero ∨ x = float_top ∨
  ∃ p, (Z.pos (Pos.size p) ≤ 53)%Z ∧ x = float_of_pos p.

Definition counted_pos (x : spec_float) : Prop :=
  x = float_top ∨ ∃ p, (Z.pos (Pos.size p) ≤ 53)%Z ∧ x = float_of_pos p.

(** The last byte of [s] is a NUL byte. *)
Fixpoint ends_nul (s : string) : bool :=
  match s with
  | EmptyString => false
  | String c s' =>
      match s' with
      | EmptyString => Ascii.eqb c Ascii.zero
      | String _ _ => ends_nul s'
      end
  end.

(** No token of any document ends in a NUL byte. *)
Definition plain_tokens (docs : list string) : bool :=
  forallb (λ d, forallb (λ t, negb (ends_nul t)) (PyStr.split d)) docs.

(** The two bytes "a" and NUL, and a document with the tokens "a" and
    [nul_token]. *)
Definition nul_token : string := String "a" (String Ascii.zero "").

Definition nul_document : string := String "a" (String " " nul_token).

(** An entry of a binary vector or matrix. *)
Definition bit (x : spec_float) : Prop := x = F64.zero ∨ x = F64.one.

(** All entries are 0.0 or 1.0. *)
Definition binary (m : ndarray2) : Prop := Forall (Forall bit) (rows m).

(** ** get_docs *)

(** [docs[idx]] for an identifier: IndexError beyond the end of the list. *)
Definition getitem_doc (docs : list string) (idx : nat) : result string :=
  match docs !! idx with
  | Some d => Ok d
  | None => Raise IndexError
  end.

(** The loop appends [docs[idx]] for each identifier in turn. *)
Definition get_docs (idx_list : list nat) (docs : list string)
  : result (list string) :=
  forM (λ idx ds, d ← getitem_doc docs idx; Ok (ds ++ [d])) idx_list [].

(** The last cell of the notebook: [get_docs(search(query, ...), documents)]
    on what is built from one collection. *)
Definition run_get_docs (docs : list string) (query : string)
  : result (list string) :=
  '(results, _) ← run_search docs query;
  get_docs results docs.

(** The tokens of [q] are among the tokens of [q']. *)
Definition tokens_within (q q' : string) : Prop :=
  ∀ t, t ∈ PyStr.split q → t ∈ PyStr.split q'.

(** [term] occurs in the text of a document whose first position is [j]. *)
Definition occurs_at (documents : list string) (term : string) (j : nat)
  : bool :=
  existsb (λ d, (position documents d =? j) && PyStr.contains d term) documents.

(** Some term of [lexicon] whose first position is [i] occurs at [j]. *)
Definition marked_at (documents lexicon : list string) (i j : nat) : bool :=
  existsb (λ t, (position lexicon t =? i) && occurs_at documents t j) lexicon.

(** What holds of the matrix all through the loops: its shape, and that a
    1.0 stands only where the loops are to put one. *)
Definition justified (documents lexicon : list string) (m : ndarray2) : Prop :=
  (shaped (length lexicon) (length documents) m ∧ binary m) ∧
  ∀ i j, Np2.entry m i j = Some F64.one →
         marked_at documents lexicon i j = true.

(** The array handed over as [lexicon] has more than one element, so that
    [lexicon == None] has no truth value. *)
Definition ambiguous (lexicon : option (list string)) : bool :=
  match lexicon with
  | Some (_ :: _ :: _) => true
  | _ => false
  end.

(** The terms [build_termdoc_matrix] works with when it gets past that
    test. *)
Definition terms (docs : list string) (lexicon : option (list string))
  : list string :=
  match lexicon with
  | None => build_lexicon docs
  | Some a => Np.array a
  end.
(** * Properties *)

(** ** The exception monad *)

(** Supply the outcome of a closed computation as the witness. *)
Ltac exists_ok t :=
  let v := eval vm_compute in t in
  match v with Ok ?x => exists x end.

Ltac exists_fst t :=
  let v := eval vm_compute in t in
  match v with Ok (?x, _) => exists x end.

Ltac exists_snd t :=
  let v := eval vm_compute in t in
  match v with Ok (_, ?x) => exists x end.

Lemma forM_ok {A S : Type} (body : A → S → result S) (P : S → Prop) xs acc :
  P acc →
  (∀ x a, x ∈ xs → P a → ∃ a', body x a = Ok a' ∧ P a') →
  ∃ acc', forM body xs acc = Ok acc' ∧ P acc'.
Proof.
  revert acc. induction xs as [|x xs IH]; intros acc Hacc Hbody; simpl.
  - eauto.
  - destruct (Hbody x acc) as (a' & Ha' & HP); [left | done |].
    rewrite Ha'. simpl. apply IH; [done |].
    intros y a Hy. apply Hbody. by right.
Qed.

Lemma bind_ok {A B : Type} (f : A → result B) a : (Ok a ≫= f) = f a.
Proof. reflexivity. Qed.

Lemma forM_cons {A S : Type} (body : A → S → result S) x xs acc :
  forM body (x :: xs) acc = (body x acc ≫= forM body xs).
Proof. reflexivity. Qed.

Lemma mapM_result_ok {A B : Type} (f : A → result B) (g : A → B) xs :
  (∀ x, x ∈ xs → f x = Ok (g x)) → mapM_result f xs = Ok (map g xs).
Proof.
  induction xs as [|x xs IH]; intros Hf; simpl; [done |].
  rewrite Hf by left. simpl. rewrite IH; [done |].
  intros y Hy. apply Hf. by right.
Qed.

Lemma mapM_result_length {A B : Type} (f : A → result B) xs ys :
  mapM_result f xs = Ok ys → length ys = length xs.
Proof.
  revert ys. induction xs as [|x xs IH]; intros ys; simpl.
  - by intros [= <-].
  - destruct (f x); [|done]. simpl.
    destruct (mapM_result f xs) as [zs|]; [|done]. simpl.
    intros [= <-]. simpl. f_equal. by apply IH.
Qed.

(** ** Strings and their order *)

Lemma ascii_compare_refl c : Ascii.compare c c = Eq.
Proof. unfold Ascii.compare. apply N.compare_refl. Qed.

Lemma ascii_compare_lt_trans a b c :
  Ascii.compare a b = Lt → Ascii.compare b c = Lt → Ascii.compare a c = Lt.
Proof.
  unfold Ascii.compare. rewrite !N.compare_lt_iff. apply N.lt_trans.
Qed.

Lemma str_lt_trans a b c : PyStr.lt a b → PyStr.lt b c → PyStr.lt a c.
Proof.
  unfold PyStr.lt. revert b c.
  induction a as [|x a IH]; intros [|y b] [|z c]; simpl; try done.
  destruct (Ascii.compare x y) eqn:Hxy; try done.
  - apply Ascii.compare_eq_iff in Hxy as ->.
    destruct (Ascii.compare y z); try done. apply IH.
  - intros _. destruct (Ascii.compare y z) eqn:Hyz; try done.
    + apply Ascii.compare_eq_iff in Hyz as <-. by rewrite Hxy.
    + by rewrite (ascii_compare_lt_trans x y z).
Qed.

Lemma str_lt_irrefl a : ¬ PyStr.lt a a.
Proof.
  unfold PyStr.lt. induction a as [|x a IH]; simpl; [done |].
  by rewrite ascii_compare_refl.
Qed.

Lemma str_leb_lt a b : String.leb a b = true → a ≠ b → PyStr.lt a b.
Proof.
  unfold String.leb, PyStr.lt. intros Hle Hne.
  destruct (String.compare a b) eqn:Hc; try done.
  by apply String.compare_eq_iff in Hc.
Qed.

Lemma str_not_leb a b : String.leb a b = false → String.leb b a = true.
Proof. intros H. destruct (String.leb_total a b); congruence. Qed.

Lemma mem_spec x l : PyList.mem x l = true ↔ x ∈ l.
Proof.
  unfold PyList.mem. rewrite existsb_exists. split.
  - intros (y & Hy & Heq). apply String.eqb_eq in Heq as ->.
    by apply list_elem_of_In.
  - intros Hx. exists x. split; [by apply list_elem_of_In |].
    apply String.eqb_refl.
Qed.

(** ** str.split *)

Example split_demo :
  PyStr.split "  The dog  and	cat " = ["The"; "dog"; "and"; "cat"].
Proof. reflexivity. Qed.

Lemma unspaced_snoc tok c :
  unspaced tok → PyStr.is_space c = false →
  unspaced (tok ++ String c "")%string.
Proof.
  unfold unspaced. intros Htok Hc.
  induction tok as [|x tok IH]; simpl in *.
  - by repeat constructor.
  - apply Forall_cons in Htok as [Hx Htok]. constructor; auto.
Qed.

Lemma split_from_tokens s tok t :
  unspaced tok → t ∈ PyStr.split_from tok s → t ≠ "" ∧ unspaced t.
Proof.
  revert tok. induction s as [|c s IH]; intros tok Htok; simpl.
  - destruct (String.eqb_spec tok ""); [by intros ?%elem_of_nil |].
    by intros ->%list_elem_of_singleton.
  - destruct (PyStr.is_space c) eqn:Hc.
    + destruct (String.eqb_spec tok "").
      * apply IH. constructor.
      * intros [->|Ht]%elem_of_cons; [done |].
        revert Ht. apply IH. constructor.
    + apply IH. by apply unspaced_snoc.
Qed.

(** The tokens of a text are non-empty and free of separator bytes. *)
Lemma split_tokens s t : t ∈ PyStr.split s → t ≠ "" ∧ unspaced t.
Proof. apply split_from_tokens. constructor. Qed.

(** ** Elements of an array of strings *)

Lemma item_cons c s :
  Np.item (String c s)
  = match Np.item s with
    | EmptyString =>
        if Ascii.eqb c Ascii.zero then EmptyString else String c EmptyString
    | r => String c r
    end.
Proof. reflexivity. Qed.

Lemma ends_nul_cons c c' s :
  ends_nul (String c (String c' s)) = ends_nul (String c' s).
Proof. reflexivity. Qed.

(** A string that does not end in a NUL byte comes back as it is. *)
Lemma item_plain s : ends_nul s = false → Np.item s = s.
Proof.
  induction s as [|c s IH]; [done |]. destruct s as [|c' s].
  - simpl. by intros ->.
  - rewrite ends_nul_cons, item_cons. intros H. by rewrite (IH H).
Qed.

Lemma item_ends s : ends_nul (Np.item s) = false.
Proof.
  induction s as [|c s IH]; [done |]. rewrite item_cons.
  destruct (Np.item s) as [|c' r].
  - destruct (Ascii.eqb c Ascii.zero) eqn:Hc; [done | exact Hc].
  - by rewrite ends_nul_cons.
Qed.

Lemma item_idem s : Np.item (Np.item s) = Np.item s.
Proof. apply item_plain, item_ends. Qed.

Lemma array_plain l : Forall (λ t, ends_nul t = false) l → Np.array l = l.
Proof.
  unfold Np.array. induction 1 as [|t l Ht _ IH]; simpl; [done |].
  by rewrite item_plain, IH.
Qed.

Lemma plain_tokens_spec docs :
  plain_tokens docs = true
  ↔ ∀ d t, d ∈ docs → t ∈ PyStr.split d → ends_nul t = false.
Proof.
  unfold plain_tokens. rewrite forallb_forall. split.
  - intros H d t Hd%list_elem_of_In Ht%list_elem_of_In.
    specialize (H d Hd). rewrite forallb_forall in H.
    by apply negb_true_iff, H.
  - intros H d Hd%list_elem_of_In. apply forallb_forall.
    intros t Ht%list_elem_of_In. apply negb_true_iff. by eapply H.
Qed.

(** ** numpy.sort *)

Lemma np_insert_perm x l : Np.insert x l ≡ₚ x :: l.
Proof.
  induction l as [|y l IH]; simpl; [done |].
  destruct (String.leb x y); [done |].
  rewrite IH. apply Permutation_swap.
Qed.

Lemma np_isort_perm l : foldr Np.insert [] l ≡ₚ l.
Proof.
  induction l as [|x l IH]; simpl; [done |].
  by rewrite np_insert_perm, IH.
Qed.

Lemma np_sort_perm l : Np.sort l ≡ₚ Np.array l.
Proof. apply np_isort_perm. Qed.

Lemma np_insert_sorted x l :
  Sorted (λ a b, String.leb a b = true) l →
  Sorted (λ a b, String.leb a b = true) (Np.insert x l).
Proof.
  induction 1 as [|y l Hs IH Hhd]; simpl.
  - repeat constructor.
  - destruct (String.leb x y) eqn:Hxy.
    + constructor; [by constructor | by constructor].
    + constructor; [done |].
      destruct Hhd as [|z l Hyz]; simpl.
      * constructor. by apply str_not_leb.
      * destruct (String.leb x z); constructor; [by apply str_not_leb | done].
Qed.

Lemma np_sort_sorted l : Sorted (λ a b, String.leb a b = true) (Np.sort l).
Proof.
  unfold Np.sort. induction (Np.array l) as [|x a IH]; simpl; [constructor |].
  by apply np_insert_sorted.
Qed.

(** A sorted list without repetitions is strictly increasing. *)
Lemma sorted_nodup_strict l :
  Sorted (λ a b, String.leb a b = true) l → NoDup l →
  StronglySorted PyStr.lt l.
Proof.
  induction 1 as [|x l Hs IH Hhd]; intros Hnd; [constructor |].
  apply NoDup_cons in Hnd as [Hx Hnd].
  specialize (IH Hnd). constructor; [done |].
  destruct Hhd as [|y l Hxy]; [constructor |].
  assert (PyStr.lt x y) as Hlt.
  { apply str_leb_lt; [done |]. intros ->. apply Hx. left. }
  constructor; [done |].
  apply StronglySorted_inv in IH as [_ Hall].
  eapply Forall_impl; [exact Hall |].
  intros z Hz. by eapply str_lt_trans.
Qed.

(** ** build_lexicon *)

Lemma lexicon_add_elem t x lexicon :
  x ∈ lexicon_add t lexicon ↔ x = t ∨ x ∈ lexicon.
Proof.
  unfold lexicon_add. destruct (PyList.mem t lexicon) eqn:Hm.
  - apply mem_spec in Hm. split; [by right | by intros [->|]].
  - rewrite elem_of_app, list_elem_of_singleton. tauto.
Qed.

Lemma lexicon_add_nodup t lexicon :
  NoDup lexicon → NoDup (lexicon_add t lexicon).
Proof.
  unfold lexicon_add. destruct (PyList.mem t lexicon) eqn:Hm; [done |].
  intros Hnd. apply NoDup_app. split_and!; [done | | apply NoDup_singleton].
  intros x Hx ->%list_elem_of_singleton.
  apply mem_spec in Hx. congruence.
Qed.

Lemma lexicon_fold_elem ts x acc :
  x ∈ foldl (λ lexicon t, lexicon_add t lexicon) acc ts ↔ x ∈ acc ∨ x ∈ ts.
Proof.
  revert acc. induction ts as [|t ts IH]; intros acc; simpl.
  - rewrite elem_of_nil. tauto.
  - rewrite IH, lexicon_add_elem, elem_of_cons. tauto.
Qed.

Lemma lexicon_fold_nodup ts acc :
  NoDup acc → NoDup (foldl (λ lexicon t, lexicon_add t lexicon) acc ts).
Proof.
  revert acc. induction ts as [|t ts IH]; intros acc Hnd; simpl; [done |].
  by apply IH, lexicon_add_nodup.
Qed.

Lemma lexicon_docs_elem docs x acc :
  x ∈ foldl (λ lexicon d, foldl (λ lexicon t, lexicon_add t lexicon)
                                lexicon (PyStr.split d)) acc docs
  ↔ x ∈ acc ∨ ∃ d, d ∈ docs ∧ x ∈ PyStr.split d.
Proof.
  revert acc. induction docs as [|d docs IH]; intros acc; simpl.
  - split; [by left |]. intros [|(d & Hd & _)]; [done |].
    by apply elem_of_nil in Hd.
  - rewrite IH, lexicon_fold_elem. split.
    + intros [[|]|(d' & Hd' & Hx)]; [by left | |].
      * right. exists d. split; [left | done].
      * right. exists d'. split; [by right | done].
    + intros [|(d' & Hd' & Hx)]; [by left; left |].
      apply elem_of_cons in Hd' as [->|Hd']; [by left; right |].
      right. by exists d'.
Qed.

Lemma lexicon_docs_nodup docs acc :
  NoDup acc →
  NoDup (foldl (λ lexicon d, foldl (λ lexicon t, lexicon_add t lexicon)
                                   lexicon (PyStr.split d)) acc docs).
Proof.
  revert acc. induction docs as [|d docs IH]; intros acc Hnd; simpl; [done |].
  by apply IH, lexicon_fold_nodup.
Qed.

(** The lexicon holds the tokens of the collection as the array hands them
    out. *)
Lemma build_lexicon_elem docs t :
  t ∈ build_lexicon docs
  ↔ ∃ d u, d ∈ docs ∧ u ∈ PyStr.split d ∧ t = Np.item u.
Proof.
  unfold build_lexicon. rewrite np_sort_perm. unfold Np.array.
  rewrite list_elem_of_fmap. split.
  - intros (u & -> & Hu). apply lexicon_docs_elem in Hu
      as [?%elem_of_nil|(d & Hd & Hu)]; [done |]. eauto.
  - intros (d & u & Hd & Hu & ->). exists u. split; [done |].
    apply lexicon_docs_elem. eauto.
Qed.

Lemma build_lexicon_items docs :
  Forall (λ t, ends_nul t = false) (build_lexicon docs).
Proof.
  apply Forall_forall. intros t (d & u & _ & _ & ->)%build_lexicon_elem.
  apply item_ends.
Qed.

Lemma build_lexicon_token docs d t :
  d ∈ docs → t ∈ PyStr.split d → ends_nul t = false → t ∈ build_lexicon docs.
Proof.
  intros Hd Ht Hplain. apply build_lexicon_elem. exists d, t.
  by rewrite item_plain.
Qed.

Lemma build_lexicon_sound docs t :
  plain_tokens docs = true → t ∈ build_lexicon docs →
  ∃ d, d ∈ docs ∧ t ∈ PyStr.split d.
Proof.
  rewrite plain_tokens_spec. intros Hplain (d & u & Hd & Hu & ->)%build_lexicon_elem.
  exists d. rewrite item_plain; eauto.
Qed.

Lemma build_lexicon_nodup docs :
  plain_tokens docs = true → NoDup (build_lexicon docs).
Proof.
  rewrite plain_tokens_spec. intros Hplain.
  unfold build_lexicon. rewrite np_sort_perm, array_plain.
  - apply lexicon_docs_nodup, NoDup_nil_2.
  - apply Forall_forall. intros t Ht. apply lexicon_docs_elem in Ht
      as [?%elem_of_nil|(d & Hd & Ht)]; [done |]. by eapply Hplain.
Qed.

Example lexicon_demo :
  build_lexicon documents =
  ["The"; "and"; "ate"; "cat"; "dog"; "fast"; "gazelle"; "lion"; "ran";
   "sat"; "still"; "the"; "very"; "was"].
Proof. vm_compute. reflexivity. Qed.

(** C7, as the code has it: the lexicon of a collection none of whose
    tokens ends in a NUL byte is strictly increasing in the byte-wise
    lexicographic order (so sorted and free of duplicates), holds every
    token of every document and only such tokens; the empty collection has
    the empty lexicon. *)
Theorem build_lexicon_spec (docs : list string) :
  plain_tokens docs = true →
  StronglySorted PyStr.lt (build_lexicon docs) ∧
  NoDup (build_lexicon docs) ∧
  (∀ d t, d ∈ docs → t ∈ PyStr.split d → t ∈ build_lexicon docs) ∧
  (∀ t, t ∈ build_lexicon docs → ∃ d, d ∈ docs ∧ t ∈ PyStr.split d) ∧
  build_lexicon [] = [].
Proof.
  intros Hplain. split_and!.
  - apply sorted_nodup_strict;
      [apply np_sort_sorted | by apply build_lexicon_nodup].
  - by apply build_lexicon_nodup.
  - intros d t Hd Ht. eapply build_lexicon_token; [done | done |].
    by eapply plain_tokens_spec.
  - intros t Ht. by apply build_lexicon_sound.
  - reflexivity.
Qed.

Lemma build_lexicon_spec_witness :
  plain_tokens ["the cat"; "a cat sat"] = true ∧
  StronglySorted PyStr.lt (build_lexicon ["the cat"; "a cat sat"]) ∧
  NoDup (build_lexicon ["the cat"; "a cat sat"]) ∧
  (∀ d t, d ∈ ["the cat"; "a cat sat"] → t ∈ PyStr.split d →
          t ∈ build_lexicon ["the cat"; "a cat sat"]) ∧
  (∀ t, t ∈ build_lexicon ["the cat"; "a cat sat"] →
        ∃ d, d ∈ ["the cat"; "a cat sat"] ∧ t ∈ PyStr.split d) ∧
  build_lexicon [] = [].
Proof.
  assert (plain_tokens ["the cat"; "a cat sat"] = true) as Hplain
    by reflexivity.
  split; [exact Hplain |].
  exact (build_lexicon_spec ["the cat"; "a cat sat"] Hplain).
Defined.

(** C7 as stated fails on a token that ends in a NUL byte: the array drops
    the byte, so the lexicon of [nul_document] has "a" twice and lacks the
    token [nul_token]. *)
Lemma build_lexicon_nul :
  PyStr.split nul_document = ["a"; nul_token] ∧
  build_lexicon [nul_document] = ["a"; "a"] ∧
  ¬ NoDup (build_lexicon [nul_document]) ∧
  nul_token ∉ build_lexicon [nul_document].
Proof.
  assert (build_lexicon [nul_document] = ["a"; "a"]) as Hlex
    by (vm_compute; reflexivity).
  split_and!; [vm_compute; reflexivity | exact Hlex | |]; rewrite Hlex.
  - intros Hnd. apply NoDup_cons in Hnd as [Hnot _]. apply Hnot. left.
  - intros Hin. apply elem_of_cons in Hin as [Heq|Hin]; [discriminate Heq |].
    apply list_elem_of_singleton in Hin. discriminate Hin.
Qed.

(** ** list.index *)

Lemma index_from_ok n x l :
  x ∈ l →
  ∃ i, PyList.index_from n x l = Ok (n + i) ∧ l !! i = Some x ∧
       ∀ j, j < i → l !! j ≠ Some x.
Proof.
  revert n. induction l as [|y l IH]; intros n Hx; simpl.
  - by apply elem_of_nil in Hx.
  - destruct (String.eqb y x) eqn:Hyx.
    + apply String.eqb_eq in Hyx as ->. exists 0.
      rewrite Nat.add_0_r. split_and!; [done | done | lia].
    + apply String.eqb_neq in Hyx.
      apply elem_of_cons in Hx as [->|Hx]; [done |].
      destruct (IH (S n) Hx) as (i & Hi & Hl & Hmin).
      exists (S i). rewrite Hi. split_and!; [f_equal; lia | done |].
      intros [|j] Hj; simpl; [congruence |]. apply Hmin. lia.
Qed.

Lemma index_ok l x :
  x ∈ l →
  PyList.index l x = Ok (position l x) ∧ l !! position l x = Some x ∧
  ∀ j, j < position l x → l !! j ≠ Some x.
Proof.
  intros Hx. unfold position, PyList.index.
  destruct (index_from_ok 0 x l Hx) as (i & -> & Hl & Hmin). done.
Qed.

Lemma position_lt l x : x ∈ l → position l x < length l.
Proof.
  intros Hx. destruct (index_ok l x Hx) as (_ & Hl & _).
  by apply lookup_lt_Some in Hl.
Qed.

(** In a list without repetitions [index] is the inverse of the lookup. *)
Lemma position_nodup l i x : NoDup l → l !! i = Some x → position l x = i.
Proof.
  intros Hnd Hi.
  destruct (index_ok l x) as (_ & Hp & _); [by eapply list_elem_of_lookup_2 |].
  by eapply NoDup_lookup.
Qed.

(** ** build_inverted_index *)

Lemma index_document_ok documents term d index l :
  d ∈ documents → index !! term = Some l →
  index_document documents term d index =
  Ok (<[term := l ++ postings documents [d] term]> index).
Proof.
  intros Hd Hl. unfold index_document, postings.
  rewrite filter_cons, filter_nil.
  destruct (PyList.mem term (PyStr.split d)) eqn:Hm.
  - rewrite decide_True by done.
    destruct (index_ok documents d Hd) as (-> & _). simpl.
    unfold DefaultDict.append, DefaultDict.getitem. by rewrite Hl.
  - rewrite decide_False by done. simpl.
    rewrite app_nil_r. by rewrite insert_id.
Qed.

Lemma index_term_ok documents term ds index l :
  (∀ d, d ∈ ds → d ∈ documents) → index !! term = Some l →
  forM (index_document documents term) ds index =
  Ok (<[term := l ++ postings documents ds term]> index).
Proof.
  revert index l. induction ds as [|d ds IH]; intros index l Hds Hl; simpl.
  - unfold postings. rewrite filter_nil. simpl.
    rewrite app_nil_r. by rewrite insert_id.
  - erewrite index_document_ok; [| apply Hds; left | done]. simpl.
    erewrite IH; [| intros; apply Hds; by right | apply lookup_insert_eq].
    rewrite insert_insert_eq. do 2 f_equal. rewrite <- app_assoc. f_equal.
    unfold postings. rewrite !filter_cons, filter_nil.
    by destruct (decide _).
Qed.

Lemma index_terms_ok documents terms index :
  ∃ index',
    forM (λ term index,
            forM (index_document documents term) documents
                 (<[term := []]> index)) terms index = Ok index' ∧
    ∀ t, index' !! t =
         if decide (t ∈ terms) then Some (postings documents documents t)
         else index !! t.
Proof.
  revert index. induction terms as [|term terms IH]; intros index.
  - exists index. split; [done |]. intros t.
    rewrite decide_False; [done | apply not_elem_of_nil].
  - rewrite forM_cons.
    erewrite index_term_ok; [| done | apply lookup_insert_eq].
    rewrite bind_ok, insert_insert_eq, app_nil_l.
    destruct (IH (<[term := postings documents documents term]> index))
      as (index' & -> & Hspec).
    exists index'. split; [done |]. intros t. rewrite Hspec.
    destruct (decide (t ∈ terms)) as [Ht|Ht].
    + rewrite decide_True; [done | by right].
    + destruct (decide (t = term)) as [->|Hne].
      * rewrite lookup_insert_eq. rewrite decide_True; [done | left].
      * rewrite lookup_insert_ne by done.
        rewrite decide_False; [done |].
        intros [?|?]%elem_of_cons; done.
Qed.

(** The index is always built, and holds for each lexicon term the first
    positions of the texts of the documents that have the term as a token. *)
Lemma build_inverted_index_ok documents :
  ∃ index,
    build_inverted_index documents = Ok index ∧
    ∀ t, index !! t =
         if decide (t ∈ build_lexicon documents)
         then Some (postings documents documents t) else None.
Proof.
  unfold build_inverted_index.
  destruct (index_terms_ok documents (build_lexicon documents) ∅)
    as (index & Hok & Hspec).
  exists index. split; [done |]. intros t. rewrite Hspec.
  by rewrite lookup_empty.
Qed.

Lemma postings_elem documents ds t i :
  (∀ d, d ∈ ds → d ∈ documents) →
  i ∈ postings documents ds t →
  ∃ d, d ∈ ds ∧ documents !! i = Some d ∧ t ∈ PyStr.split d ∧
       i = position documents d.
Proof.
  intros Hds. unfold postings. rewrite list_elem_of_fmap.
  intros (d & -> & Hd). apply list_elem_of_filter in Hd as [Hm Hd].
  exists d. split_and!; [done | | by apply mem_spec | done].
  by apply index_ok, Hds.
Qed.

(** Every identifier in the postings of [t] is the position of a document
    that has [t] as a token. *)
Lemma postings_sound documents t i :
  i ∈ postings documents documents t →
  ∃ d, documents !! i = Some d ∧ t ∈ PyStr.split d.
Proof.
  intros Hi.
  destruct (postings_elem documents documents t i) as (d & _ & Hd & Ht & _);
    [done | done | eauto].
Qed.

(** When no text is repeated, the postings are exactly the positions of the
    documents that have the term as a token. *)
Lemma postings_complete documents t i d :
  NoDup documents → documents !! i = Some d → t ∈ PyStr.split d →
  i ∈ postings documents documents t.
Proof.
  intros Hnd Hi Ht. unfold postings. apply list_elem_of_fmap.
  exists d. split; [symmetry; by apply position_nodup |].
  apply list_elem_of_filter. split; [by apply mem_spec |].
  by eapply list_elem_of_lookup_2.
Qed.

(** C2 at the collection ["a"; "a"]: the document at position 1 has the
    token "a", yet the index lists position 0 twice and never position 1. *)
Theorem inverted_index_repeated_text :
  ∃ index,
    build_inverted_index ["a"; "a"] = Ok index ∧
    index !! "a" = Some [0; 0] ∧
    ["a"; "a"] !! 1 = Some "a" ∧ "a" ∈ PyStr.split "a" ∧
    1 ∉ default [] (index !! "a").
Proof.
  exists_ok (build_inverted_index ["a"; "a"]).
  split; [vm_compute; reflexivity |].
  split_and!; [done | done | by left |].
  vm_compute. intros H. inversion H as [|? ? ? H']; subst.
  inversion H' as [|? ? ? H'']; subst. inversion H''.
Qed.

(** ** build_termdoc_matrix *)

Lemma zeros_shaped nr nc : shaped nr nc (Np2.zeros nr nc).
Proof.
  unfold shaped, Np2.zeros. simpl. split_and!.
  - done.
  - apply length_replicate.
  - apply Forall_replicate, length_replicate.
Qed.

Lemma setitem_ok nr nc m i j v :
  shaped nr nc m → i < nr → j < nc →
  ∃ m', Np2.setitem m i j v = Ok m' ∧ shaped nr nc m'.
Proof.
  intros (Hc & Hr & Hall) Hi Hj. unfold Np2.setitem.
  rewrite Hc, Hr.
  destruct (Nat.ltb_spec i nr); [| lia].
  destruct (Nat.ltb_spec j nc); [| lia]. simpl.
  eexists. split; [done |]. unfold shaped. simpl. split_and!.
  - done.
  - by rewrite length_alter.
  - apply Forall_alter; [done |]. intros r _ Hlen.
    by rewrite length_insert.
Qed.

Lemma mark_document_ok documents lexicon term d m :
  term ∈ lexicon → d ∈ documents →
  shaped (length lexicon) (length documents) m →
  ∃ m', mark_document documents lexicon term d m = Ok m' ∧
        shaped (length lexicon) (length documents) m'.
Proof.
  intros Hterm Hd Hm. unfold mark_document.
  destruct (index_ok lexicon term Hterm) as (-> & _).
  destruct (index_ok documents d Hd) as (-> & _).
  rewrite !bind_ok.
  destruct (PyStr.contains d term); [| eauto].
  apply setitem_ok; [done | by apply position_lt..].
Qed.

Lemma termdoc_loop_ok documents lexicon terms m :
  (∀ t, t ∈ terms → t ∈ lexicon) →
  shaped (length lexicon) (length documents) m →
  ∃ m',
    forM (λ term termdoc_matrix,
            forM (mark_document documents lexicon term) documents
                 termdoc_matrix) terms m = Ok m' ∧
    shaped (length lexicon) (length documents) m'.
Proof.
  intros Hterms Hm.
  apply (forM_ok _ (shaped (length lexicon) (length documents))); [done |].
  intros term a Hterm Ha.
  apply (forM_ok _ (shaped (length lexicon) (length documents))); [done |].
  intros d a' Hd Ha'. apply mark_document_ok; auto.
Qed.

Lemma build_termdoc_matrix_none documents :
  build_termdoc_matrix documents None
  = forM (λ term m,
            forM (mark_document documents (build_lexicon documents) term)
                 documents m)
         (build_lexicon documents)
         (Np2.zeros (length (build_lexicon documents)) (length documents)).
Proof. reflexivity. Qed.

(** A supplied array of two or more terms does not pass the test for
    [None]; a shorter one is used as the lexicon. *)
Lemma build_termdoc_matrix_some documents a :
  build_termdoc_matrix documents (Some a)
  = match a with
    | _ :: _ :: _ => Raise ValueError
    | _ => forM (λ term m,
                   forM (mark_document documents (Np.array a) term)
                        documents m)
                (Np.array a)
                (Np2.zeros (length (Np.array a)) (length documents))
    end.
Proof. by destruct a as [|? [|? ?]]. Qed.

(** Without a lexicon the matrix is always built, and has one row per term
    and one column per document. *)
Lemma build_termdoc_matrix_ok documents :
  ∃ m,
    build_termdoc_matrix documents None = Ok m ∧
    shaped (length (build_lexicon documents)) (length documents) m.
Proof.
  rewrite build_termdoc_matrix_none.
  apply termdoc_loop_ok; [done | apply zeros_shaped].
Qed.

(** C9, at the code: without a lexicon the matrix of any collection is
    built. Handed the lexicon [build_lexicon] returns, the call raises
    ValueError at [lexicon == None] as soon as the lexicon has two terms,
    and only with fewer does it return the matrix of the call without a
    lexicon; it raises on the collection ["a b"]. *)
Theorem build_termdoc_matrix_lexicon (docs : list string) :
  (∃ m, build_termdoc_matrix docs None = Ok m ∧
        shaped (length (build_lexicon docs)) (length docs) m) ∧
  build_termdoc_matrix docs (Some (build_lexicon docs))
  = (if decide (2 ≤ length (build_lexicon docs)) then Raise ValueError
     else build_termdoc_matrix docs None) ∧
  (∃ m, build_termdoc_matrix ["a b"] None = Ok m) ∧
  build_termdoc_matrix ["a b"] (Some (build_lexicon ["a b"]))
  = Raise ValueError.
Proof.
  split_and!.
  - apply build_termdoc_matrix_ok.
  - pose proof (array_plain _ (build_lexicon_items docs)) as Harr.
    rewrite build_termdoc_matrix_some, build_termdoc_matrix_none.
    destruct (build_lexicon docs) as [|x [|y l]].
    + rewrite decide_False by (simpl; lia). by rewrite Harr.
    + rewrite decide_False by (simpl; lia). by rewrite Harr.
    + rewrite decide_True by (simpl; lia). done.
  - exists_ok (build_termdoc_matrix ["a b"] None). vm_compute. reflexivity.
  - vm_compute. reflexivity.
Qed.

(** C1 at the collection ["cat"; "category"]: row 0 is the term "cat",
    column 1 is the document "category", whose only token is "category";
    the entry is 1 all the same, because "cat" is a substring of the text. *)
Theorem termdoc_matrix_substring :
  ∃ m,
    build_termdoc_matrix ["cat"; "category"] None = Ok m ∧
    build_lexicon ["cat"; "category"] !! 0 = Some "cat" ∧
    PyStr.split "category" = ["category"] ∧
    Np2.entry m 0 1 = Some F64.one.
Proof.
  exists_ok (build_termdoc_matrix ["cat"; "category"] None).
  split_and!; vm_compute; reflexivity.
Qed.

(** The same function at ["a"; "a"]: the document at position 1 has the
    token "a", but its column stays 0, the position being looked up by text. *)
Lemma termdoc_matrix_repeated_text :
  ∃ m,
    build_termdoc_matrix ["a"; "a"] None = Ok m ∧
    build_lexicon ["a"; "a"] !! 0 = Some "a" ∧
    PyStr.split "a" = ["a"] ∧
    Np2.entry m 0 1 = Some F64.zero.
Proof.
  exists_ok (build_termdoc_matrix ["a"; "a"] None).
  split_and!; vm_compute; reflexivity.
Qed.

(** ** distance *)

Section ZeroVector.

(** Sums and products of zeros stay zero; once a NaN or a zero is all an
    operand can be, the quotient of two such operands is NaN. *)
Let zn (x : spec_float) : Prop := F64.is_zero x = true ∨ F64.is_nan x = true.

Local Ltac float_cases :=
  repeat match goal with
         | x : spec_float |- _ => destruct x
         | s : bool |- _ => destruct s
         | H : _ ∨ _ |- _ => destruct H
         end; simpl in *; try done; auto.

Lemma add_zero x y :
  F64.is_zero x = true → F64.is_zero y = true →
  F64.is_zero (F64.add x y) = true.
Proof. unfold F64.add. float_cases. Qed.

Lemma mul_zero x y :
  F64.is_zero x = true → F64.is_zero y = true →
  F64.is_zero (F64.mul x y) = true.
Proof. unfold F64.mul. float_cases. Qed.

Lemma add_zn x y : zn x → zn y → zn (F64.add x y).
Proof. unfold zn, F64.add. intros. float_cases. Qed.

Lemma mul_zn_l x y : F64.is_zero x = true → zn (F64.mul x y).
Proof. unfold zn, F64.mul. intros. float_cases. Qed.

Lemma mul_zn_r x y : F64.is_zero y = true → zn (F64.mul x y).
Proof. unfold zn, F64.mul. intros. float_cases. Qed.

Lemma div_zn x y : zn x → zn y → F64.div x y = S754_nan.
Proof. unfold zn, F64.div. intros. float_cases. Qed.

Lemma sqrt_zero x : F64.is_zero x = true → F64.is_zero (F64.sqrt x) = true.
Proof. unfold F64.sqrt. destruct x; done. Qed.

Lemma sum_zero l acc :
  F64.is_zero acc = true → Forall (λ x, F64.is_zero x = true) l →
  F64.is_zero (foldl F64.add acc l) = true.
Proof.
  intros Hacc Hl. revert acc Hacc.
  induction Hl as [|x l Hx Hl IH]; intros acc Hacc; simpl; [done |].
  by apply IH, add_zero.
Qed.

Lemma sum_zn l acc : zn acc → Forall zn l → zn (foldl F64.add acc l).
Proof.
  intros Hacc Hl. revert acc Hacc.
  induction Hl as [|x l Hx Hl IH]; intros acc Hacc; simpl; [done |].
  by apply IH, add_zn.
Qed.

Lemma zero_vector_forall v :
  zero_vector v ↔ Forall (λ x, F64.is_zero x = true) v.
Proof.
  unfold zero_vector. rewrite forallb_forall, Forall_forall.
  split; intros H x Hx; apply H; by apply list_elem_of_In.
Qed.

Lemma products_zn_l v w :
  zero_vector v → Forall zn (zip_with F64.mul v w).
Proof.
  rewrite zero_vector_forall. intros Hv. revert w.
  induction Hv as [|x v Hx Hv IH]; intros [|y w]; simpl; try constructor.
  - by apply mul_zn_l.
  - apply IH.
Qed.

Lemma products_zn_r v w :
  zero_vector w → Forall zn (zip_with F64.mul v w).
Proof.
  rewrite zero_vector_forall. intros Hw. revert v.
  induction Hw as [|y w Hy Hw IH]; intros [|x v]; simpl; try constructor.
  - by apply mul_zn_r.
  - apply IH.
Qed.

Lemma norm_zero v : zero_vector v → F64.is_zero (Np2.norm v) = true.
Proof.
  rewrite zero_vector_forall. intros Hv. unfold Np2.norm.
  apply sqrt_zero, sum_zero; [done |].
  induction Hv as [|x v Hx Hv IH]; simpl; constructor; [| done].
  by apply mul_zero.
Qed.

End ZeroVector.

(** C3, as the code has it: on two vectors of one length, one of them a zero
    vector, [distance] raises nothing and returns the float NaN. *)
Theorem distance_zero_vector (v w : list spec_float) :
  length v = length w → zero_vector v ∨ zero_vector w →
  distance v w = Ok S754_nan.
Proof.
  intros Hlen Hzero. unfold distance, Np2.dot.
  rewrite Hlen, Nat.eqb_refl, bind_ok. f_equal.
  apply div_zn.
  - apply sum_zn; [by left |].
    destruct Hzero; [by apply products_zn_l | by apply products_zn_r].
  - destruct Hzero as [Hv|Hw].
    + by apply mul_zn_l, norm_zero.
    + by apply mul_zn_r, norm_zero.
Qed.

Lemma distance_zero_vector_witness :
  length [F64.zero; F64.zero] = length [F64.one; F64.zero] ∧
  (zero_vector [F64.zero; F64.zero] ∨ zero_vector [F64.one; F64.zero]) ∧
  distance [F64.zero; F64.zero] [F64.one; F64.zero] = Ok S754_nan.
Proof.
  assert (length [F64.zero; F64.zero] = length [F64.one; F64.zero]) as Hlen
    by reflexivity.
  assert (zero_vector [F64.zero; F64.zero] ∨ zero_vector [F64.one; F64.zero])
    as Hzero by (left; reflexivity).
  split_and!; [exact Hlen | exact Hzero |].
  exact (distance_zero_vector _ _ Hlen Hzero).
Defined.

(** C3 as stated fails: the similarity of the zero vector and a unit vector
    is a returned value, no exception. *)
Lemma distance_zero_vector_returns :
  distance [F64.zero] [F64.one] = Ok S754_nan ∧
  ¬ ∃ e, distance [F64.zero] [F64.one] = Raise e.
Proof. split; [reflexivity |]. intros [e He]. vm_compute in He. done. Qed.

(** ** Python sets *)

Lemma omap_id_length (tbl : list (option nat)) :
  length (omap id tbl) ≤ length tbl.
Proof. induction tbl as [|[x|] tbl IH]; csimpl; lia. Qed.

Lemma omap_id_replicate n : omap id (replicate n (@None nat)) = [].
Proof. induction n; csimpl; done. Qed.

Lemma keys_fill_slot (tbl : list (option nat)) slot k :
  tbl !! slot = Some None →
  omap id (<[slot := Some k]> tbl) ≡ₚ k :: omap id tbl.
Proof.
  revert slot. induction tbl as [|x tbl IH]; intros [|slot]; csimpl; try done.
  - by intros [= ->].
  - intros Hslot. destruct x as [x|]; csimpl.
    + rewrite IH by done. apply Permutation_swap.
    + by apply IH.
Qed.

Lemma probe_some fuel tbl i perturb slot :
  PySet.probe fuel tbl i perturb = Some slot → tbl !! slot = Some None.
Proof.
  revert i perturb. induction fuel as [|fuel IH]; intros i perturb; simpl.
  - destruct (tbl !! N.to_nat _) as [[x|]|] eqn:Hl; try done.
    intros ?. by simplify_eq.
  - destruct (tbl !! N.to_nat _) as [[x|]|] eqn:Hl; try apply IH.
    intros ?. by simplify_eq.
Qed.

Lemma first_empty_some tbl slot :
  PySet.first_empty tbl = Some slot → tbl !! slot = Some None.
Proof.
  revert slot. induction tbl as [|[x|] tbl IH]; intros slot; simpl; try done.
  - destruct (PySet.first_empty tbl) as [n|]; [| done].
    intros [= <-]. by apply IH.
  - by intros [= <-].
Qed.

Lemma first_empty_exists tbl :
  length (omap id tbl) < length tbl → is_Some (PySet.first_empty tbl).
Proof.
  induction tbl as [|[x|] tbl IH]; csimpl; [lia | | eauto].
  intros Hlt. destruct IH as [n ->]; [lia | by eexists].
Qed.

Lemma free_slot_some tbl hash slot :
  PySet.free_slot tbl hash = Some slot → tbl !! slot = Some None.
Proof.
  unfold PySet.free_slot.
  destruct (PySet.probe _ _ _ _) eqn:Hp.
  - intros [= <-]. by eapply probe_some.
  - apply first_empty_some.
Qed.

Lemma free_slot_exists tbl hash :
  length (omap id tbl) < length tbl → is_Some (PySet.free_slot tbl hash).
Proof.
  intros Hlt. unfold PySet.free_slot.
  destruct (PySet.probe _ _ _ _); [by eexists | by apply first_empty_exists].
Qed.

Lemma insert_clean_spec k tbl :
  length (omap id tbl) < length tbl →
  omap id (PySet.insert_clean k tbl) ≡ₚ k :: omap id tbl ∧
  length (PySet.insert_clean k tbl) = length tbl.
Proof.
  intros Hlt. unfold PySet.insert_clean.
  destruct (free_slot_exists tbl (N.of_nat k) Hlt) as [slot Hslot].
  rewrite Hslot. split; [| apply length_insert].
  by eapply keys_fill_slot, free_slot_some.
Qed.

Lemma insert_clean_fold ks tbl :
  length (omap id tbl) + length ks ≤ length tbl →
  omap id (foldl (λ tbl k, PySet.insert_clean k tbl) tbl ks)
    ≡ₚ ks ++ omap id tbl ∧
  length (foldl (λ tbl k, PySet.insert_clean k tbl) tbl ks) = length tbl.
Proof.
  revert tbl. induction ks as [|k ks IH]; intros tbl Hle; simpl in *.
  - done.
  - destruct (insert_clean_spec k tbl) as [Hperm Hlen]; [lia |].
    destruct (IH (PySet.insert_clean k tbl)) as [Hperm' Hlen'].
    { rewrite Hlen, Hperm. simpl. lia. }
    split; [| congruence].
    rewrite Hperm', Hperm. by rewrite Permutation_middle.
Qed.

Lemma grow_gt fuel newsize minused :
  0 < newsize → minused < newsize + fuel →
  minused < PySet.grow fuel newsize minused.
Proof.
  revert newsize. induction fuel as [|fuel IH]; intros newsize Hpos Hlt; simpl.
  - destruct (Nat.leb_spec newsize minused); lia.
  - destruct (Nat.leb_spec newsize minused); [| lia].
    apply IH; lia.
Qed.

Lemma table_resize_spec s minused :
  PySet.used s ≤ minused →
  PySet.keys (PySet.table_resize s minused) ≡ₚ PySet.keys s ∧
  minused < length (table (PySet.table_resize s minused)).
Proof.
  intros Hle. unfold PySet.table_resize, PySet.keys at 1. simpl.
  assert (minused < PySet.grow minused PySet.MINSIZE minused) as Hgrow.
  { apply grow_gt; unfold PySet.MINSIZE; lia. }
  destruct (insert_clean_fold (PySet.keys s)
              (replicate (PySet.grow minused PySet.MINSIZE minused) None))
    as [Hperm Hlen].
  { rewrite omap_id_replicate, length_replicate. simpl.
    unfold PySet.used in Hle. lia. }
  rewrite Hperm, Hlen, omap_id_replicate, length_replicate, app_nil_r.
  done.
Qed.

Lemma contains_spec k s : PySet.contains k s = true ↔ k ∈ PySet.keys s.
Proof.
  unfold PySet.contains. rewrite existsb_exists. split.
  - intros (x & Hx & ->%Nat.eqb_eq). by apply list_elem_of_In.
  - intros Hk. exists k. split; [by apply list_elem_of_In |].
    apply Nat.eqb_refl.
Qed.

Lemma set_wf_empty : set_wf PySet.empty.
Proof. split; [apply NoDup_nil_2 | vm_compute; lia]. Qed.

Lemma set_wf_room s : set_wf s → PySet.used s < length (table s).
Proof. intros [_ Hload]. lia. Qed.

Lemma insert_key_spec k s :
  NoDup (PySet.keys s) → PySet.used s < length (table s) →
  NoDup (PySet.keys (PySet.insert_key k s)) ∧
  (∀ x, x ∈ PySet.keys (PySet.insert_key k s) ↔ x = k ∨ x ∈ PySet.keys s) ∧
  length (table (PySet.insert_key k s)) = length (table s) ∧
  PySet.used (PySet.insert_key k s) =
    (if PySet.contains k s then PySet.used s else S (PySet.used s)).
Proof.
  intros Hnd Hroom. unfold PySet.insert_key.
  destruct (PySet.contains k s) eqn:Hc.
  - apply contains_spec in Hc. split_and!; [done | | done | done].
    intros x. split; [by right | by intros [->|]].
  - assert (k ∉ PySet.keys s) as Hk.
    { intros Hk%contains_spec. congruence. }
    destruct (insert_clean_spec k (table s)) as [Hperm Hlen]; [done |].
    unfold PySet.used, PySet.keys in *. simpl.
    split_and!.
    + rewrite Hperm. by apply NoDup_cons.
    + intros x. rewrite Hperm. apply elem_of_cons.
    + done.
    + by rewrite Hperm.
Qed.

Lemma add_key_spec k s :
  set_wf s →
  set_wf (PySet.add_key k s) ∧
  ∀ x, x ∈ PySet.keys (PySet.add_key k s) ↔ x = k ∨ x ∈ PySet.keys s.
Proof.
  intros [Hnd Hload].
  destruct (insert_key_spec k s) as (Hnd' & Helem & Hlen & Hused);
    [done | lia |].
  unfold PySet.add_key.
  destruct (_ && _) eqn:Hcond; cycle 1.
  - split; [| done]. split; [done |].
    apply andb_false_iff in Hcond as [Hc|Hc].
    + apply Nat.ltb_ge in Hc. rewrite Hlen. lia.
    + apply Nat.leb_gt in Hc. lia.
  - set (s' := PySet.insert_key k s) in *.
    set (minused := if (50000 <? N.of_nat (PySet.used s'))%N
                    then PySet.used s' * 2 else PySet.used s' * 4).
    assert (PySet.used s' * 2 ≤ minused) as Hmin.
    { unfold minused. destruct (_ <? _)%N; lia. }
    destruct (table_resize_spec s' minused) as [Hperm Hsize]; [lia |].
    split.
    + split; [by rewrite Hperm |].
      unfold PySet.used. rewrite Hperm. fold (PySet.used s'). lia.
    + intros x. by rewrite Hperm.
Qed.

Lemma add_key_fold l s :
  set_wf s →
  set_wf (foldl (λ s k, PySet.add_key k s) s l) ∧
  ∀ x, x ∈ PySet.keys (foldl (λ s k, PySet.add_key k s) s l)
       ↔ x ∈ l ∨ x ∈ PySet.keys s.
Proof.
  revert s. induction l as [|k l IH]; intros s Hwf; simpl.
  - split; [done |]. intros x. rewrite elem_of_nil. tauto.
  - destruct (add_key_spec k s Hwf) as [Hwf' Helem].
    destruct (IH _ Hwf') as [Hwf'' Helem'].
    split; [done |]. intros x. rewrite Helem', Helem, elem_of_cons. tauto.
Qed.

(** [set(l)] holds the elements of [l], each once. *)
Lemma of_list_spec l :
  set_wf (PySet.of_list l) ∧
  ∀ x, x ∈ PySet.keys (PySet.of_list l) ↔ x ∈ l.
Proof.
  destruct (add_key_fold l PySet.empty set_wf_empty) as [Hwf Helem].
  split; [done |]. intros x. unfold PySet.of_list. rewrite Helem.
  change (PySet.keys PySet.empty) with (@nil nat). rewrite elem_of_nil. tauto.
Qed.

Lemma intersection_fold so ks result :
  set_wf result →
  set_wf (foldl (λ result k,
                   if PySet.contains k so then PySet.add_key k result
                   else result) result ks) ∧
  ∀ x, x ∈ PySet.keys (foldl (λ result k,
                                if PySet.contains k so
                                then PySet.add_key k result
                                else result) result ks)
       ↔ (x ∈ ks ∧ x ∈ PySet.keys so) ∨ x ∈ PySet.keys result.
Proof.
  revert result. induction ks as [|k ks IH]; intros result Hwf; simpl.
  - split; [done |]. intros x. rewrite elem_of_nil. tauto.
  - destruct (PySet.contains k so) eqn:Hc.
    + apply contains_spec in Hc.
      destruct (add_key_spec k result Hwf) as [Hwf' Helem].
      destruct (IH _ Hwf') as [Hwf'' Helem'].
      split; [done |]. intros x. rewrite Helem', Helem, elem_of_cons.
      split; [| tauto]. intros [[? ?]|[->|?]]; tauto.
    + destruct (IH _ Hwf) as [Hwf' Helem].
      split; [done |]. intros x. rewrite Helem, elem_of_cons.
      split; [tauto |]. intros [[[->|?] Hx]|?]; [| tauto..].
      apply contains_spec in Hx. congruence.
Qed.

Lemma intersection_spec so other :
  set_wf (PySet.intersection so other) ∧
  ∀ x, x ∈ PySet.keys (PySet.intersection so other)
       ↔ x ∈ PySet.keys so ∧ x ∈ PySet.keys other.
Proof.
  unfold PySet.intersection.
  destruct (PySet.used so <? PySet.used other);
    (edestruct intersection_fold as [Hwf Helem]; [apply set_wf_empty |];
     split; [exact Hwf |]; intros x; rewrite Helem;
     change (PySet.keys PySet.empty) with (@nil nat); rewrite elem_of_nil;
     tauto).
Qed.

Lemma insert_key_fold ks s :
  NoDup (PySet.keys s) → PySet.used s + length ks ≤ length (table s) →
  let s' := foldl (λ s k, PySet.insert_key k s) s ks in
  NoDup (PySet.keys s') ∧
  (∀ x, x ∈ PySet.keys s' ↔ x ∈ ks ∨ x ∈ PySet.keys s) ∧
  length (table s') = length (table s) ∧
  PySet.used s' ≤ PySet.used s + length ks.
Proof.
  revert s. induction ks as [|k ks IH]; intros s Hnd Hroom; simpl in *.
  - split_and!; [done | | done | lia]. intros x. rewrite elem_of_nil. tauto.
  - destruct (insert_key_spec k s) as (Hnd' & Helem & Hlen & Hused);
      [done | lia |].
    assert (PySet.used (PySet.insert_key k s) ≤ S (PySet.used s)) as Hle.
    { rewrite Hused. destruct (PySet.contains k s); lia. }
    destruct (IH (PySet.insert_key k s)) as (Hnd'' & Helem' & Hlen' & Hused');
      [done | lia |].
    split_and!; [done | | congruence | lia].
    intros x. rewrite Helem', Helem, elem_of_cons. tauto.
Qed.

Lemma merge_spec so other :
  set_wf so →
  set_wf (PySet.merge so other) ∧
  ∀ x, x ∈ PySet.keys (PySet.merge so other)
       ↔ x ∈ PySet.keys so ∨ x ∈ PySet.keys other.
Proof.
  intros [Hnd Hload]. unfold PySet.merge.
  destruct (Nat.eqb_spec (PySet.used other) 0) as [Hzero|Hpos].
  - split; [done |]. intros x.
    apply length_zero_iff_nil in Hzero. rewrite Hzero, elem_of_nil. tauto.
  - set (so' := if _ <=? _ then _ else so).
    assert (NoDup (PySet.keys so') ∧
            (∀ x, x ∈ PySet.keys so' ↔ x ∈ PySet.keys so) ∧
            PySet.used so' = PySet.used so ∧
            (PySet.used so + PySet.used other) * 3 < length (table so') * 2)
      as (Hnd' & Helem & Hused & Hload').
    { unfold so'. destruct (Nat.leb_spec (length (table so) * 2)
                              ((PySet.used so + PySet.used other) * 3)).
      - destruct (table_resize_spec so
                    ((PySet.used so + PySet.used other) * 2))
          as [Hperm Hsize]; [lia |].
        split_and!; [by rewrite Hperm | by intros x; rewrite Hperm | | lia].
        unfold PySet.used. by rewrite Hperm.
      - done. }
    destruct (insert_key_fold (PySet.keys other) so')
      as (Hnd'' & Helem' & Hlen & Hused'); [done | |].
    { fold (PySet.used other). lia. }
    fold (PySet.used other) in Hused'. split.
    + split; [done |]. rewrite Hlen. lia.
    + intros x. rewrite Helem', Helem. tauto.
Qed.

Lemma copy_spec so :
  set_wf (PySet.copy so) ∧
  ∀ x, x ∈ PySet.keys (PySet.copy so) ↔ x ∈ PySet.keys so.
Proof.
  destruct (merge_spec PySet.empty so set_wf_empty) as [Hwf Helem].
  split; [done |]. intros x. unfold PySet.copy. rewrite Helem.
  change (PySet.keys PySet.empty) with (@nil nat). rewrite elem_of_nil. tauto.
Qed.

Lemma intersection_foldl so args :
  ∀ x, x ∈ PySet.keys (foldl PySet.intersection so args)
       ↔ x ∈ PySet.keys so ∧ Forall (λ a, x ∈ PySet.keys a) args.
Proof.
  revert so. induction args as [|a args IH]; intros so x; simpl.
  - split; [by intros ?; split | by intros [? _]].
  - rewrite IH, Forall_cons.
    destruct (intersection_spec so a) as [_ ->]. tauto.
Qed.

Lemma foldl_intersection_wf so args :
  set_wf so → set_wf (foldl PySet.intersection so args).
Proof.
  revert so. induction args as [|a args IH]; intros so Hwf; simpl; [done |].
  apply IH, intersection_spec.
Qed.

(** The set [set.intersection] returns holds the keys common to all sets,
    each once. *)
Lemma intersection_multi_spec so args :
  set_wf so →
  set_wf (PySet.intersection_multi so args) ∧
  ∀ x, x ∈ PySet.keys (PySet.intersection_multi so args)
       ↔ x ∈ PySet.keys so ∧ Forall (λ a, x ∈ PySet.keys a) args.
Proof.
  intros Hwf. unfold PySet.intersection_multi.
  destruct args as [|a args].
  - destruct (copy_spec so) as [Hwf' Helem]. split; [done |].
    intros x. rewrite Helem. split; [by intros ?; split | by intros [? _]].
  - split; [by apply foldl_intersection_wf | apply intersection_foldl].
Qed.

(** ** sorted *)

Lemma precedes_app_r {A : Type} (l : list A) a x :
  a ∈ l → precedes (l ++ [x]) a x.
Proof.
  intros (l1 & l2 & ->)%list_elem_of_split.
  exists l1, l2, []. by rewrite <- app_assoc.
Qed.

Lemma precedes_app_l {A : Type} (l l' : list A) a b :
  precedes l a b → precedes (l ++ l') a b.
Proof.
  intros (l1 & l2 & l3 & ->). exists l1, l2, (l3 ++ l').
  rewrite <- app_assoc. simpl. by rewrite <- app_assoc.
Qed.

Lemma precedes_rev {A : Type} (l : list A) a b :
  precedes (rev l) a b → precedes l b a.
Proof.
  intros (l1 & l2 & l3 & Hl). exists (rev l3), (rev l2), (rev l1).
  rewrite <- (rev_involutive l), Hl.
  rewrite !rev_app_distr. simpl. rewrite !rev_app_distr. simpl.
  by rewrite <- !app_assoc.
Qed.

Lemma precedes_fmap {A B : Type} (f : A → B) (l : list A) a b :
  precedes l a b → precedes (f <$> l) (f a) (f b).
Proof.
  intros (l1 & l2 & l3 & ->). exists (f <$> l1), (f <$> l2), (f <$> l3).
  by rewrite !fmap_app, !fmap_cons, !fmap_app, !fmap_cons.
Qed.

Lemma StronglySorted_rev {A : Type} (R : A → A → Prop) l :
  StronglySorted R l → StronglySorted (flip R) (rev l).
Proof.
  induction 1 as [|x l Hs IH Hall]; simpl; [constructor |].
  apply StronglySorted_app. split_and!; [| done | repeat constructor].
  intros y z Hy ->%list_elem_of_singleton.
  rewrite Forall_forall in Hall. apply Hall.
  by apply list_elem_of_In, in_rev, list_elem_of_In.
Qed.

Lemma StronglySorted_and {A : Type} (R : A → A → Prop) (P : A → Prop) l :
  Forall P l → StronglySorted R l →
  StronglySorted (λ a b, P a ∧ P b ∧ R a b) l.
Proof.
  intros HP Hs. induction Hs as [|x l Hs IH Hall]; [constructor |].
  apply Forall_cons in HP as [Hx HP]. constructor; [by apply IH |].
  rewrite Forall_forall in *. intros y Hy. split_and!; auto.
Qed.

Lemma zip_decorate {A K : Type} (g : A → K) (l : list A) :
  zip (map g l) l = (λ a, (g a, a)) <$> l.
Proof. induction l as [|a l IH]; simpl; [done |]. by rewrite IH. Qed.

Section SortFacts.
Context {A K : Type} (lt eqv : K → K → bool).
Hypothesis lt_trans :
  ∀ x y z, lt x y = true → lt y z = true → lt x z = true.
Hypothesis lt_irrefl : ∀ x, lt x x = false.
Hypothesis eqv_lt : ∀ x y z, eqv x y = true → lt x z = lt y z.
Hypothesis eqv_sym : ∀ x y, eqv x y = eqv y x.

Lemma sort_insert_perm (x : K * A) l : PySorted.insert lt x l ≡ₚ x :: l.
Proof.
  induction l as [|y l IH]; simpl; [done |].
  destruct (lt x.1 y.1); [done |].
  rewrite IH. apply Permutation_swap.
Qed.

Lemma stable_sort_fold_perm (l acc : list (K * A)) :
  foldl (λ acc x, PySorted.insert lt x acc) acc l ≡ₚ acc ++ l.
Proof.
  revert acc. induction l as [|x l IH]; intros acc; simpl.
  - by rewrite app_nil_r.
  - rewrite IH, sort_insert_perm. simpl. apply Permutation_middle.
Qed.

Lemma stable_sort_perm (l : list (K * A)) : PySorted.stable_sort lt l ≡ₚ l.
Proof. apply (stable_sort_fold_perm l []). Qed.

(** What the ascending sort establishes for the pairs of [pre] sorted so
    far: no pair is followed by a smaller one, and pairs with equal keys
    come in the order they have in [pre]. *)
Let ordered (pre : list (K * A)) (p q : K * A) : Prop :=
  lt q.1 p.1 = false ∧ (eqv p.1 q.1 = true → precedes pre p q).

Lemma ordered_app pre l p q : ordered pre p q → ordered (pre ++ l) p q.
Proof. intros [Hlt Htie]. split; [done |]. intros. by apply precedes_app_l, Htie. Qed.

Lemma sort_insert_ordered pre x l :
  (∀ p, p ∈ l → p ∈ pre) →
  StronglySorted (ordered pre) l →
  StronglySorted (ordered (pre ++ [x])) (PySorted.insert lt x l).
Proof.
  intros Hsub Hs.
  induction Hs as [|y l Hs IH Hall]; simpl; [repeat constructor |].
  rewrite Forall_forall in Hall.
  assert (StronglySorted (ordered (pre ++ [x])) (y :: l)) as Hyl.
  { constructor.
    - eapply StronglySorted_fmap with (f := id) in Hs;
        [by rewrite list_fmap_id in Hs | apply ordered_app].
    - apply Forall_forall. intros q Hq. by apply ordered_app, Hall. }
  destruct (lt x.1 y.1) eqn:Hxy.
  - (* [x] goes in front of [y] and of all that follows [y] *)
    constructor; [done |]. apply Forall_forall. intros q Hq.
    assert (lt q.1 y.1 = false) as Hqy.
    { apply elem_of_cons in Hq as [->|Hq]; [apply lt_irrefl |].
      by apply Hall. }
    split.
    + destruct (lt q.1 x.1) eqn:Hqx; [| done].
      by rewrite (lt_trans _ _ _ Hqx Hxy) in Hqy.
    + intros Heqv. rewrite (eqv_lt _ _ _ Heqv) in Hxy. congruence.
  - (* [x] goes behind [y] *)
    constructor.
    + apply IH. intros p Hp. apply Hsub. by right.
    + apply Forall_forall. intros q Hq.
      rewrite sort_insert_perm in Hq.
      apply elem_of_cons in Hq as [->|Hq].
      * split; [done |]. intros _. apply precedes_app_r, Hsub. left.
      * by apply ordered_app, Hall.
Qed.

Lemma stable_sort_fold_ordered l pre acc :
  acc ≡ₚ pre →
  StronglySorted (ordered pre) acc →
  StronglySorted (ordered (pre ++ l))
                 (foldl (λ acc x, PySorted.insert lt x acc) acc l).
Proof.
  revert pre acc. induction l as [|x l IH]; intros pre acc Hperm Hs; simpl.
  - by rewrite app_nil_r.
  - replace (pre ++ x :: l) with ((pre ++ [x]) ++ l)
      by (by rewrite <- app_assoc).
    apply IH.
    + rewrite sort_insert_perm, Hperm. by rewrite <- Permutation_cons_append.
    + apply sort_insert_ordered; [| done].
      intros p Hp. by rewrite <- Hperm.
Qed.

Lemma stable_sort_ordered l :
  StronglySorted (ordered l) (PySorted.stable_sort lt l).
Proof. apply (stable_sort_fold_ordered l [] []); [done | constructor]. Qed.

(** [sorted(l, key=key, reverse=True)] where no key raises: the result
    rearranges [l], nothing in it is followed by something with a greater
    key, and items with equal keys keep the order they have in [l]. *)
Lemma sorted_reverse_spec (key : A → result K) (g : A → K) (l : list A) :
  (∀ a, a ∈ l → key a = Ok (g a)) →
  ∃ r, PySorted.sorted lt l key true = Ok r ∧ r ≡ₚ l ∧
       StronglySorted
         (λ a b, lt (g a) (g b) = false ∧
                 (eqv (g a) (g b) = true → precedes l a b)) r.
Proof.
  intros Hkey. unfold PySorted.sorted.
  rewrite (mapM_result_ok key g) by done. rewrite bind_ok.
  rewrite zip_decorate.
  set (dec := (λ a, (g a, a)) <$> l).
  set (final := rev (PySorted.stable_sort lt (rev dec))).
  assert (final ≡ₚ dec) as Hperm.
  { unfold final. by rewrite <- Permutation_rev, stable_sort_perm,
                              <- Permutation_rev. }
  assert (dec.*2 = l) as Hdec.
  { unfold dec. rewrite <- list_fmap_compose. apply list_fmap_id. }
  exists (final.*2). split_and!; [done | by rewrite Hperm, Hdec |].
  assert (Forall (λ p : K * A, p.1 = g p.2) final) as Hfst.
  { rewrite Hperm. unfold dec. by apply Forall_fmap, Forall_true. }
  pose proof (StronglySorted_rev _ _ (stable_sort_ordered (rev dec))) as Hs.
  fold final in Hs.
  eapply StronglySorted_fmap; [| exact (StronglySorted_and _ _ _ Hfst Hs)].
  intros p q (Hp & Hq & [Hlt Htie]). simpl in *.
  rewrite <- Hp, <- Hq. split; [done |].
  intros Heqv. rewrite eqv_sym in Heqv.
  rewrite <- Hdec. by apply precedes_fmap, precedes_rev, Htie.
Qed.

(** Whatever the keys are, the outcome of [sorted] rearranges its input. *)
Lemma sorted_perm (key : A → result K) (l r : list A) reverse :
  PySorted.sorted lt l key reverse = Ok r → r ≡ₚ l.
Proof.
  unfold PySorted.sorted.
  destruct (mapM_result key l) as [ks|] eqn:Hks; [| done].
  rewrite bind_ok. intros [= <-].
  apply mapM_result_length in Hks.
  assert ((zip ks l).*2 = l) as Hzip by (apply snd_zip; lia).
  destruct reverse.
  - by rewrite <- Permutation_rev, stable_sort_perm, <- Permutation_rev, Hzip.
  - by rewrite stable_sort_perm, Hzip.
Qed.

End SortFacts.

(** ** The order of float64 values *)

Section FloatOrder.

Local Ltac compare_cases :=
  repeat match goal with
         | |- context [Z.compare ?a ?b] =>
             destruct (Z.compare_spec a b); subst; simpl; try lia
         | |- context [Pos.compare_cont Eq ?a ?b] =>
             change (Pos.compare_cont Eq a b) with (Pos.compare a b);
             destruct (Pos.compare_spec a b); subst; simpl; try lia
         end; try done.

Local Ltac float_split x :=
  destruct x as [[]|[]| |[] ? ?]; simpl; try done.

Lemma ltb_trans x y z :
  F64.ltb x y = true → F64.ltb y z = true → F64.ltb x z = true.
Proof.
  unfold F64.ltb, SFltb, SFcompare.
  float_split x; float_split y; float_split z; compare_cases.
Qed.

Lemma ltb_irrefl x : F64.ltb x x = false.
Proof.
  unfold F64.ltb, SFltb, SFcompare. float_split x; compare_cases.
Qed.

Lemma eqb_ltb x y z : F64.eqb x y = true → F64.ltb x z = F64.ltb y z.
Proof.
  unfold F64.eqb, F64.ltb, SFeqb, SFltb, SFcompare.
  float_split x; float_split y; float_split z; compare_cases.
Qed.

Lemma eqb_sym x y : F64.eqb x y = F64.eqb y x.
Proof.
  unfold F64.eqb, SFeqb, SFcompare.
  float_split x; float_split y; compare_cases.
Qed.

End FloatOrder.

(** ** Rounding in float64 *)

Section Rounding.
Open Scope Z_scope.

Lemma digits2_size p : digits2_pos p = Pos.size p.
Proof. induction p; simpl; congruence. Qed.

Lemma Zdigits2_log2 m : 0 < m → Zdigits2 m = Z.log2 m + 1.
Proof.
  destruct m as [|p|p]; try lia. intros _. simpl.
  rewrite digits2_size. destruct p; simpl; lia.
Qed.

Lemma Zdigits2_nonneg m : 0 ≤ Zdigits2 m.
Proof. destruct m; simpl; lia. Qed.

Lemma Zdigits2_mono a b : 0 ≤ a → a ≤ b → Zdigits2 a ≤ Zdigits2 b.
Proof.
  intros Ha Hab. destruct (Z.eq_dec a 0) as [->|Hne].
  - apply Zdigits2_nonneg.
  - rewrite !Zdigits2_log2 by lia.
    pose proof (Z.log2_le_mono a b Hab). lia.
Qed.

Lemma Zdigits2_succ a : 0 ≤ a → Zdigits2 (a + 1) ≤ Zdigits2 a + 1.
Proof.
  intros Ha. destruct (Z.eq_dec a 0) as [->|Hne]; [simpl; lia |].
  rewrite !Zdigits2_log2 by lia.
  pose proof (Z.log2_succ_le a). unfold Z.succ in *. lia.
Qed.

Lemma iter_pos_nat {A : Type} (f : A → A) p x :
  SpecFloat.iter_pos f p x = Nat.iter (Pos.to_nat p) f x.
Proof.
  revert x. induction p as [p IH|p IH|]; intros x; cbn [SpecFloat.iter_pos].
  - rewrite !IH, Pos2Nat.inj_xI, Nat.iter_succ_r.
    replace (2 * Pos.to_nat p)%nat with (Pos.to_nat p + Pos.to_nat p)%nat
      by lia.
    by rewrite Nat.iter_add.
  - rewrite !IH, Pos2Nat.inj_xO.
    replace (2 * Pos.to_nat p)%nat with (Pos.to_nat p + Pos.to_nat p)%nat
      by lia.
    by rewrite Nat.iter_add.
  - done.
Qed.

Lemma shr_1_nonneg mrs :
  0 ≤ shr_m mrs → shr_m (shr_1 mrs) = Z.div2 (shr_m mrs).
Proof. destruct mrs as [[|[p|p|]|p] r s]; simpl; try lia; done. Qed.

Lemma shr_iter_nonneg n mrs :
  0 ≤ shr_m mrs →
  shr_m (Nat.iter n shr_1 mrs) = shr_m mrs / 2 ^ Z.of_nat n.
Proof.
  intros Hm. induction n as [|n IH].
  - simpl. by rewrite Z.div_1_r.
  - rewrite Nat2Z.inj_succ, Z.pow_succ_r by lia. simpl.
    rewrite shr_1_nonneg, IH.
    + rewrite Z.div2_div, Z.div_div by lia. f_equal. lia.
    + rewrite IH. apply Z.div_pos; lia.
Qed.

Lemma shr_record_of_loc_m m l : shr_m (shr_record_of_loc m l) = m.
Proof. by destruct l as [|[]]. Qed.

(** Shifting right by [fexp]: the new mantissa and exponent. *)
Lemma shr_fexp_spec m e l :
  0 ≤ m →
  let n := fexp F64.prec F64.emax (Zdigits2 m + e) - e in
  shr_m (fst (shr_fexp F64.prec F64.emax m e l)) = m / 2 ^ Z.max 0 n ∧
  snd (shr_fexp F64.prec F64.emax m e l) = e + Z.max 0 n.
Proof.
  intros Hm n. unfold shr_fexp. fold n. unfold shr.
  destruct n as [|k|k] eqn:Hn; simpl fst; simpl snd.
  - rewrite shr_record_of_loc_m, Z.div_1_r. lia.
  - rewrite iter_pos_nat, shr_iter_nonneg, shr_record_of_loc_m,
      positive_nat_Z by (by rewrite shr_record_of_loc_m).
    split; [done | lia].
  - rewrite shr_record_of_loc_m, Z.div_1_r. lia.
Qed.

Lemma Zdigits2_shift m k :
  0 ≤ m → 0 ≤ k → Zdigits2 (m / 2 ^ k) ≤ Z.max 0 (Zdigits2 m - k).
Proof.
  intros Hm Hk.
  destruct (Z.eq_dec (m / 2 ^ k) 0) as [->|Hne]; [simpl; lia |].
  assert (0 < m / 2 ^ k) by (pose proof (Z.div_pos m (2 ^ k)); lia).
  assert (0 < m).
  { destruct (Z.eq_dec m 0) as [->|]; [| lia].
    rewrite Z.div_0_l in Hne; [done |]. apply Z.pow_nonzero; lia. }
  assert (k ≤ Z.log2 m).
  { apply Z.log2_le_pow2; [done |].
    destruct (Z.le_gt_cases (2 ^ k) m); [done |].
    rewrite Z.div_small in Hne; lia. }
  rewrite !Zdigits2_log2 by lia.
  rewrite <- Z.shiftr_div_pow2, Z.log2_shiftr by lia. lia.
Qed.

Lemma round_nearest_even_bounds m l :
  m ≤ round_nearest_even m l ≤ m + 1.
Proof. destruct l as [|[]]; simpl; try lia. destruct (Z.even m); lia. Qed.

(** The outcome of rounding a non-negative mantissa: never NaN, of the sign
    asked for; finite when the magnitude stays in range. *)
Lemma binary_round_aux_spec sx mx ex lx :
  0 ≤ mx →
  let r := binary_round_aux F64.prec F64.emax sx mx ex lx in
  F64.is_nan r = false ∧
  (Zdigits2 mx + ex ≤ 971 → ex ≤ 971 → F64.is_finite r = true).
Proof.
  intros Hmx r. unfold r, binary_round_aux.
  destruct (shr_fexp_spec mx ex lx Hmx) as [Hm1 He1].
  destruct (shr_fexp F64.prec F64.emax mx ex lx) as [mrs' e'].
  simpl in Hm1, He1.
  set (m1 := round_nearest_even (shr_m mrs') (loc_of_shr_record mrs')).
  assert (0 ≤ shr_m mrs') as Hpos'.
  { rewrite Hm1. apply Z.div_pos; lia. }
  pose proof (round_nearest_even_bounds (shr_m mrs') (loc_of_shr_record mrs'))
    as Hround. fold m1 in Hround.
  destruct (shr_fexp_spec m1 e' loc_Exact) as [Hm2 He2]; [lia |].
  destruct (shr_fexp F64.prec F64.emax m1 e' loc_Exact) as [mrs'' e''].
  simpl in Hm2, He2.
  assert (0 ≤ shr_m mrs'') as Hpos''.
  { rewrite Hm2. apply Z.div_pos; lia. }
  destruct (shr_m mrs'') as [|m|m] eqn:Hm; [done | | lia].
  split; [by destruct (_ <=? _) |].
  intros Hmag Hex.
  destruct (Z.leb_spec e'' (F64.emax - F64.prec)) as [|Hgt]; [done |].
  exfalso.
  pose proof (Zdigits2_shift mx
                (Z.max 0 (fexp F64.prec F64.emax (Zdigits2 mx + ex) - ex)))
    as Hshift.
  rewrite <- Hm1 in Hshift.
  pose proof (Zdigits2_mono m1 (shr_m mrs' + 1)) as Hmono.
  pose proof (Zdigits2_succ (shr_m mrs')) as Hsucc.
  pose proof (Zdigits2_nonneg mx). pose proof (Zdigits2_nonneg m1).
  unfold fexp, emin, F64.prec, F64.emax in *. lia.
Qed.

(** *** Products and quotients *)

Lemma mul_not_nan x y :
  F64.is_finite x = true → F64.is_finite y = true →
  F64.is_nan (F64.mul x y) = false.
Proof.
  destruct x as [sx|sx| |sx mx ex], y as [sy|sy| |sy my ey]; try done.
  intros _ _. apply binary_round_aux_spec. lia.
Qed.

Lemma div_not_nan sx mx ex y :
  F64.is_nan y = false →
  F64.is_nan (F64.div (S754_finite sx mx ex) y) = false.
Proof.
  destruct y as [sy|sy| |sy my ey]; try done. intros _.
  unfold F64.div, SFdiv, SFdiv_core_binary.
  set (m' := match _ - _ with Z0 => Z.pos mx | Z.pos _ => _ | Z.neg _ => 0 end).
  assert (0 ≤ m') as Hm'.
  { unfold m'. destruct (_ - _); [lia | | lia]. apply Z.shiftl_nonneg. lia. }
  pose proof (Z.div_pos m' (Z.pos my) Hm' ltac:(lia)) as Hq.
  unfold Z.div in Hq. destruct (Z.div_eucl m' (Z.pos my)) as [q r].
  by apply binary_round_aux_spec.
Qed.

(** *** Square roots *)

Lemma sqrt_finite m e :
  Zdigits2 (Z.pos m) = 53 → -52 ≤ e ≤ 1 →
  F64.is_finite (F64.sqrt (S754_finite false m e)) = true.
Proof.
  intros Hd He. unfold F64.sqrt, SFsqrt, SFsqrt_core_binary. rewrite Hd.
  set (e' := Z.min _ _).
  assert (-52 ≤ e' ≤ 0) as He'.
  { unfold e', fexp, emin, F64.prec, F64.emax. rewrite !Z.div2_div.
    pose proof (Z.div_le_mono (53 + e + 1) 55 2 ltac:(lia) ltac:(lia)).
    pose proof (Z.div_le_mono 2 (53 + e + 1) 2 ltac:(lia) ltac:(lia)).
    pose proof (Z.div_le_mono e 1 2 ltac:(lia) ltac:(lia)).
    pose proof (Z.div_le_mono (-52) e 2 ltac:(lia) ltac:(lia)).
    change (55 / 2) with 27 in *. change (2 / 2) with 1 in *.
    change (1 / 2) with 0 in *. change (-52 / 2) with (-26) in *. lia. }
  set (s := e - 2 * e').
  set (m' := match s with Z0 => Z.pos m | Z.pos _ => _ | Z.neg _ => 0 end).
  assert (0 ≤ m' ∧ Zdigits2 m' ≤ 53 + Z.max 0 s) as [Hm' Hdm'].
  { unfold m'. destruct s as [|k|k] eqn:Hs.
    - lia.
    - assert (0 < Z.shiftl (Z.pos m) (Z.pos k)) as Hpos.
      { rewrite Z.shiftl_mul_pow2 by lia.
        apply Z.mul_pos_pos; [lia | apply Z.pow_pos_nonneg; lia]. }
      split; [lia |].
      rewrite Zdigits2_log2 by done.
      rewrite Z.log2_shiftl by lia.
      rewrite Zdigits2_log2 in Hd by lia. lia.
    - simpl. lia. }
  pose proof (Z.sqrtrem_sqrt m') as Hsqrt.
  destruct (Z.sqrtrem m') as [q r]. simpl in Hsqrt. subst q.
  pose proof (Z.sqrt_nonneg m').
  pose proof (Z.sqrt_le_lin m' Hm').
  pose proof (Zdigits2_mono (Z.sqrt m') m' ltac:(done) ltac:(done)).
  apply binary_round_aux_spec; [done | | lia].
  unfold s in *. lia.
Qed.

(** *** Sums of ones *)

Lemma shiftl_pos_Z p n : Z.pos (Pos.shiftl p n) = Z.pos p * 2 ^ Z.of_N n.
Proof.
  destruct n as [|k].
  { change (Z.of_N 0) with 0. by rewrite Z.pow_0_r, Z.mul_1_r. }
  change (Z.of_N (N.pos k)) with (Z.pos k). unfold Pos.shiftl.
  induction k as [|k IH] using Pos.peano_ind.
  - change (2 ^ 1) with 2. simpl. lia.
  - rewrite Pos.iter_succ, Pos2Z.inj_succ, Z.pow_succ_r by lia.
    rewrite Pos2Z.inj_xO, IH. lia.
Qed.

Lemma size_bounds p :
  2 ^ (Z.pos (Pos.size p) - 1) ≤ Z.pos p < 2 ^ Z.pos (Pos.size p).
Proof.
  assert (Z.pos (Pos.size p) = Z.log2 (Z.pos p) + 1) as ->.
  { rewrite <- digits2_size. apply (Zdigits2_log2 (Z.pos p)). lia. }
  replace (Z.log2 (Z.pos p) + 1 - 1) with (Z.log2 (Z.pos p)) by lia.
  apply (Z.log2_spec (Z.pos p)). lia.
Qed.

Lemma size_unique p n :
  2 ^ (n - 1) ≤ Z.pos p < 2 ^ n → Z.pos (Pos.size p) = n.
Proof.
  intros Hn. pose proof (size_bounds p) as Hp.
  assert (0 < n).
  { destruct (Z.le_gt_cases n 0); [| done].
    rewrite (Z.pow_neg_r 2 (n - 1)) in Hn by lia.
    assert (2 ^ n ≤ 1); [| lia].
    destruct (Z.eq_dec n 0) as [->|]; [done |].
    rewrite Z.pow_neg_r; lia. }
  destruct (Z.lt_trichotomy (Z.pos (Pos.size p)) n) as [Hlt|[Heq|Hgt]];
    [| done |].
  - pose proof (Z.pow_le_mono_r 2 (Z.pos (Pos.size p)) (n - 1)
                  ltac:(lia) ltac:(lia)). lia.
  - pose proof (Z.pow_le_mono_r 2 n (Z.pos (Pos.size p) - 1)
                  ltac:(lia) ltac:(lia)). lia.
Qed.

Lemma size_shiftl p n :
  Z.pos (Pos.size (Pos.shiftl p n)) = Z.pos (Pos.size p) + Z.of_N n.
Proof.
  apply size_unique. rewrite shiftl_pos_Z.
  pose proof (size_bounds p) as [Hlo Hhi].
  pose proof (N2Z.is_nonneg n).
  replace (Z.pos (Pos.size p) + Z.of_N n - 1)
    with (Z.pos (Pos.size p) - 1 + Z.of_N n) by lia.
  rewrite !Z.pow_add_r by lia.
  assert (0 < 2 ^ Z.of_N n) by (apply Z.pow_pos_nonneg; lia).
  split; [apply Z.mul_le_mono_nonneg_r; lia |].
  apply Z.mul_lt_mono_pos_r; lia.
Qed.

Lemma shiftl_shiftl p a b :
  Pos.shiftl (Pos.shiftl p a) b = Pos.shiftl p (a + b).
Proof.
  apply Pos2Z.inj. rewrite !shiftl_pos_Z, N2Z.inj_add, Z.pow_add_r;
    [lia | apply N2Z.is_nonneg..].
Qed.

Lemma shl_align_le m e e' :
  e' ≤ e → shl_align m e e' = (Pos.shiftl m (Z.to_N (e - e')), e').
Proof.
  intros Hle. unfold shl_align.
  destruct (e' - e) as [|d|d] eqn:Hd; try lia.
  - replace (e - e') with 0 by lia. simpl. f_equal. lia.
  - replace (e - e') with (Z.pos d) by lia. done.
Qed.

Lemma shl_align_ge m e e' : e ≤ e' → shl_align m e e' = (m, e).
Proof.
  intros Hle. unfold shl_align. destruct (e' - e) eqn:Hd; try done. lia.
Qed.

Lemma shiftl_succ q n : Pos.shiftl q (N.succ n) = ((Pos.shiftl q n)~0)%positive.
Proof.
  destruct n as [|k]; [done |]. simpl. apply Pos.iter_succ.
Qed.

(** Shifting out zero bits is exact. *)
Lemma shr_exact n q :
  Nat.iter n shr_1
    {| shr_m := Z.pos (Pos.shiftl q (N.of_nat n)); shr_r := false;
       shr_s := false |}
  = {| shr_m := Z.pos q; shr_r := false; shr_s := false |}.
Proof.
  induction n as [|n IH]; [done |].
  rewrite Nat.iter_succ_r, Nat2N.inj_succ, shiftl_succ. exact IH.
Qed.

(** The float64 of [p] plus 1.0 is the float64 of [p + 1]. *)
Lemma add_float_of_pos p :
  Z.pos (Pos.size (p + 1)) ≤ 53 →
  F64.add (float_of_pos p) F64.one = float_of_pos (p + 1).
Proof.
  intros Hs'.
  pose proof (size_bounds p) as Hp. pose proof (size_bounds (p + 1)) as Hp'.
  assert (Z.pos (Pos.size p) ≤ Z.pos (Pos.size (p + 1))) as Hmono.
  { destruct (Z.le_gt_cases (Z.pos (Pos.size p)) (Z.pos (Pos.size (p + 1))));
      [done |].
    pose proof (Z.pow_le_mono_r 2 (Z.pos (Pos.size (p + 1)))
                  (Z.pos (Pos.size p) - 1) ltac:(lia) ltac:(lia)). lia. }
  assert (2 ≤ Z.pos (Pos.size (p + 1))) as Hs2.
  { destruct (Z.le_gt_cases 2 (Z.pos (Pos.size (p + 1)))); [done |].
    assert (Z.pos (Pos.size (p + 1)) = 1) as Heq by lia.
    rewrite Heq in Hp'. change (2 ^ 1) with 2 in Hp'. lia. }
  set (s := Z.pos (Pos.size p)) in *.
  set (s' := Z.pos (Pos.size (p + 1))) in *.
  unfold F64.add, float_of_pos, F64.one, SFadd. fold s s'.
  rewrite Z.min_r by lia.
  rewrite shl_align_le by lia. rewrite (shl_align_ge _ (-52) (-52)) by lia.
  rewrite shiftl_shiftl.
  cbn [fst cond_Zopp].
  assert (Z.pos (Pos.shiftl p (Z.to_N (53 - s) + Z.to_N (s - 53 - -52)))
          + 4503599627370496
          = Z.pos (Pos.shiftl (Pos.shiftl (p + 1) (Z.to_N (53 - s')))
                              (Z.to_N (s' - 1)))) as ->.
  { rewrite shiftl_shiftl, !shiftl_pos_Z.
    replace (Z.to_N (53 - s) + Z.to_N (s - 53 - -52))%N with 52%N by lia.
    replace (Z.to_N (53 - s') + Z.to_N (s' - 1))%N with 52%N by lia.
    change (2 ^ Z.of_N 52) with 4503599627370496. lia. }
  set (q := Pos.shiftl (p + 1) (Z.to_N (53 - s'))).
  assert (Z.pos (Pos.size q) = 53) as Hq.
  { unfold q. rewrite size_shiftl. fold s'. lia. }
  assert (Z.pos (Pos.size (Pos.shiftl q (Z.to_N (s' - 1)))) = s' + 52) as HM.
  { rewrite size_shiftl, Hq. lia. }
  unfold binary_normalize, binary_round.
  rewrite digits2_size, HM.
  rewrite shl_align_ge by (unfold fexp, emin, F64.prec, F64.emax; lia).
  unfold binary_round_aux, shr_fexp.
  cbn [Zdigits2]. rewrite digits2_size, HM.
  replace (fexp F64.prec F64.emax (s' + 52 + -52) - -52) with (s' - 1)
    by (unfold fexp, emin, F64.prec, F64.emax; lia).
  unfold shr. destruct (s' - 1) as [|k|k] eqn:Hk; try lia.
  cbn [shr_record_of_loc].
  rewrite iter_pos_nat.
  replace (Z.to_N (Z.pos k)) with (N.of_nat (Pos.to_nat k)) by lia.
  rewrite shr_exact.
  cbn [shr_m loc_of_shr_record round_nearest_even Zdigits2].
  rewrite digits2_size, Hq.
  replace (fexp F64.prec F64.emax (53 + (-52 + Z.pos k)) - (-52 + Z.pos k))
    with 0 by (unfold fexp, emin, F64.prec, F64.emax; lia).
  cbn [shr_record_of_loc shr_m].
  replace (-52 + Z.pos k) with (s' - 53) by lia.
  destruct (Z.leb_spec (s' - 53) (F64.emax - F64.prec)) as [|Hgt]; [done |].
  unfold F64.emax, F64.prec in Hgt. lia.
Qed.

Lemma mul_bits x y :
  (x = F64.zero ∨ x = F64.one) → (y = F64.zero ∨ y = F64.one) →
  F64.mul x y = if F64.is_zero x || F64.is_zero y then F64.zero else F64.one.
Proof. intros [-> | ->] [-> | ->]; vm_compute; reflexivity. Qed.

Lemma counted_add_zero x : counted x → F64.add x F64.zero = x.
Proof. intros [-> | [-> | (p & _ & ->)]]; reflexivity. Qed.

Lemma counted_add_one x : counted x → counted_pos (F64.add x F64.one).
Proof.
  intros [-> | [-> | (p & Hp & ->)]].
  - right. exists 1%positive. split; [simpl; lia | reflexivity].
  - left. vm_compute. reflexivity.
  - destruct (Z.le_gt_cases (Z.pos (Pos.size (p + 1))) 53) as [Hle|Hgt].
    + right. exists (p + 1)%positive. split; [done |].
      by apply add_float_of_pos.
    + left.
      pose proof (size_bounds p) as Hb. pose proof (size_bounds (p + 1)) as Hb'.
      assert (2 ^ 53 ≤ Z.pos (p + 1)) as Hlo.
      { pose proof (Z.pow_le_mono_r 2 53 (Z.pos (Pos.size (p + 1)) - 1)
                      ltac:(lia) ltac:(lia)). lia. }
      assert (Z.pos p < 2 ^ 53) as Hhi.
      { pose proof (Z.pow_le_mono_r 2 (Z.pos (Pos.size p)) 53
                      ltac:(lia) ltac:(lia)). lia. }
      assert (p = 9007199254740991%positive) as ->.
      { change (2 ^ 53) with 9007199254740992 in *. lia. }
      vm_compute. reflexivity.
Qed.

Lemma counted_pos_counted x : counted_pos x → counted x.
Proof. intros [->|?]; [right; by left | right; by right]. Qed.

Lemma counted_finite x : counted x → F64.is_finite x = true.
Proof. intros [-> | [-> | (p & _ & ->)]]; reflexivity. Qed.

Lemma counted_sqrt_finite x :
  counted x → F64.is_finite (F64.sqrt x) = true.
Proof.
  intros [-> | [-> | (p & Hp & ->)]]; [reflexivity | by vm_compute |].
  apply sqrt_finite.
  - cbn [Zdigits2]. rewrite digits2_size, size_shiftl. lia.
  - pose proof (Zdigits2_nonneg 1). lia.
Qed.

End Rounding.

(** ** Tokens are substrings *)

Lemma string_app_nil_l (s : string) : ("" ++ s)%string = s.
Proof. reflexivity. Qed.

Lemma string_app_cons c (a b : string) :
  (String c a ++ b)%string = String c (a ++ b)%string.
Proof. reflexivity. Qed.

Lemma string_app_assoc (a b c : string) :
  ((a ++ b) ++ c = a ++ (b ++ c))%string.
Proof.
  induction a as [|x a IH]; [done |].
  by rewrite !string_app_cons, IH.
Qed.

Lemma prefix_app t b : String.prefix t (t ++ b)%string = true.
Proof.
  induction t as [|c t IH]; [by destruct b |].
  rewrite string_app_cons. simpl.
  destruct (Ascii.ascii_dec c c); [done | congruence].
Qed.

Lemma contains_prefix s sub :
  String.prefix sub s = true → PyStr.contains s sub = true.
Proof. destruct s; simpl; by intros ->. Qed.

Lemma contains_app a t b : PyStr.contains (a ++ t ++ b)%string t = true.
Proof.
  induction a as [|c a IH].
  - rewrite string_app_nil_l. apply contains_prefix, prefix_app.
  - rewrite string_app_cons. simpl. rewrite IH. apply orb_true_r.
Qed.

Lemma split_from_substring s tok a d t :
  d = (a ++ tok ++ s)%string → t ∈ PyStr.split_from tok s →
  ∃ a' b', d = (a' ++ t ++ b')%string.
Proof.
  revert tok a. induction s as [|c s IH]; intros tok a Hd; simpl.
  - destruct (String.eqb tok ""); [by intros ?%elem_of_nil |].
    intros ->%list_elem_of_singleton. eauto.
  - assert (d = ((a ++ tok ++ String c "") ++ "" ++ s)%string) as Hd'.
    { rewrite Hd, !string_app_assoc. done. }
    assert (d = (a ++ (tok ++ String c "") ++ s)%string) as Hd''.
    { rewrite Hd, !string_app_assoc. done. }
    destruct (PyStr.is_space c).
    + destruct (String.eqb tok ""); [by apply IH with (a := (a ++ tok ++ String c "")%string) |].
      intros [->|Ht]%elem_of_cons; [eauto |].
      by apply IH with (a := (a ++ tok ++ String c "")%string) in Ht.
    + by apply IH with (a := a).
Qed.

(** A token of a document occurs in its text. *)
Lemma token_contains d t : t ∈ PyStr.split d → PyStr.contains d t = true.
Proof.
  intros Ht. destruct (split_from_substring d "" "" d t) as (a & b & ->);
    [done | done |]. apply contains_app.
Qed.

(** ** Binary vectors and matrices *)

Lemma forM_cover {A B S : Type} (body : A → S → result S)
    (P : S → Prop) (E : A → S → Prop) (M : B → S → Prop) xs acc :
  P acc →
  (∀ x a, x ∈ xs → P a →
          ∃ a', body x a = Ok a' ∧ P a' ∧ E x a' ∧ ∀ b, M b a → M b a') →
  (∀ x a a', E x a → (∀ b, M b a → M b a') → E x a') →
  ∃ acc', forM body xs acc = Ok acc' ∧ P acc' ∧
          (∀ x, x ∈ xs → E x acc') ∧ ∀ b, M b acc → M b acc'.
Proof.
  intros Hacc Hbody Hstable. revert acc Hacc.
  induction xs as [|x xs IH]; intros acc Hacc.
  - exists acc. split_and!; [done | done | | done].
    by intros x ?%elem_of_nil.
  - destruct (Hbody x acc) as (a' & Ha' & HP & HE & HM); [left | done |].
    destruct IH with (acc := a') as (acc' & Hacc' & HP' & HE' & HM'); [| done |].
    { intros y a Hy. apply Hbody. by right. }
    exists acc'. rewrite forM_cons, Ha', bind_ok.
    split_and!; [done | done | | by auto].
    intros y [->|Hy]%elem_of_cons; [| by apply HE'].
    by eapply Hstable.
Qed.

Lemma bit_zero : bit F64.zero.
Proof. by left. Qed.

Lemma bit_one : bit F64.one.
Proof. by right. Qed.

Lemma mark_bits lexicon part vec : Forall bit vec → Forall bit (mark lexicon part vec).
Proof.
  intros Hvec. unfold mark. revert lexicon.
  induction Hvec as [|v vec Hv Hvec IH]; intros [|t lexicon]; simpl;
    try constructor; [| apply IH].
  destruct (String.eqb _ _); [apply bit_one | done].
Qed.

Lemma mark_lookup lexicon part vec i t v :
  lexicon !! i = Some t → vec !! i = Some v →
  mark lexicon part vec !! i
  = Some (if String.eqb (Np.item t) (Np.item part) then F64.one else v).
Proof.
  intros Ht Hv. unfold mark. by rewrite lookup_zip_with, Ht, Hv.
Qed.

Lemma build_vector_bits query lexicon : Forall bit (build_vector query lexicon).
Proof.
  unfold build_vector.
  assert (Forall bit (replicate (length lexicon) F64.zero)) as Hvec.
  { apply Forall_replicate, bit_zero. }
  revert Hvec. generalize (replicate (length lexicon) F64.zero) as vec.
  induction (PyStr.split query) as [|part parts IH]; intros vec Hvec; simpl.
  - done.
  - by apply IH, mark_bits.
Qed.

Lemma build_vector_one query lexicon i t :
  lexicon !! i = Some t → t ∈ PyStr.split query →
  build_vector query lexicon !! i = Some F64.one.
Proof.
  intros Hi Ht. unfold build_vector.
  assert (∃ v, replicate (length lexicon) F64.zero !! i = Some v) as Hv.
  { apply lookup_lt_is_Some. rewrite length_replicate.
    by apply lookup_lt_Some in Hi. }
  assert ((replicate (length lexicon) F64.zero !! i = Some F64.one)
          ∨ t ∈ PyStr.split query) as Hor by (by right).
  clear Ht. revert Hv Hor.
  generalize (replicate (length lexicon) F64.zero) as vec.
  induction (PyStr.split query) as [|part parts IH]; intros vec [v Hv] Hor;
    simpl.
  - destruct Hor as [|?%elem_of_nil]; done.
  - apply IH.
    + erewrite mark_lookup by done. eauto.
    + erewrite mark_lookup by done.
      destruct (String.eqb_spec (Np.item t) (Np.item part)) as [Heq|Hne];
        [by left |].
      destruct Hor as [Hone|[->|Hin]%elem_of_cons]; [left | done | by right].
      congruence.
Qed.

Lemma zeros_binary nr nc : binary (Np2.zeros nr nc).
Proof. apply Forall_replicate, Forall_replicate, bit_zero. Qed.

Lemma setitem_one nr nc m i j :
  shaped nr nc m → binary m → i < nr → j < nc →
  ∃ m', Np2.setitem m i j F64.one = Ok m' ∧ shaped nr nc m' ∧ binary m' ∧
        Np2.entry m' i j = Some F64.one ∧
        ∀ i' j', Np2.entry m i' j' = Some F64.one →
                 Np2.entry m' i' j' = Some F64.one.
Proof.
  intros Hshape Hbin Hi Hj.
  destruct (setitem_ok nr nc m i j F64.one Hshape Hi Hj) as (m' & Hm' & Hshape').
  exists m'. split_and!; [done | done | | |].
  - unfold Np2.setitem in Hm'. destruct (_ && _); [| done].
    injection Hm' as <-. unfold binary. simpl.
    apply Forall_alter; [done |]. intros r _ Hr.
    apply Forall_insert; [done | apply bit_one].
  - destruct Hshape as (Hc & Hr & Hall).
    unfold Np2.setitem in Hm'. destruct (_ && _); [| done].
    injection Hm' as <-. unfold Np2.entry. simpl.
    destruct (lookup_lt_is_Some_2 (rows m) i) as [r Hrow]; [lia |].
    rewrite list_lookup_alter_eq, Hrow. simpl.
    apply list_lookup_insert_eq.
    rewrite Forall_forall in Hall. rewrite (Hall r); [done |].
    by eapply list_elem_of_lookup_2.
  - intros i' j'. unfold Np2.setitem in Hm'. destruct (_ && _); [| done].
    injection Hm' as <-. unfold Np2.entry. simpl.
    destruct (decide (i = i')) as [<-|Hne].
    + rewrite list_lookup_alter_eq.
      destruct (rows m !! i) as [r|]; simpl; [| done].
      destruct (decide (j = j')) as [<-|Hne'].
      * intros Hone. apply list_lookup_insert_eq. by eapply lookup_lt_Some.
      * by rewrite list_lookup_insert_ne.
    + by rewrite list_lookup_alter_ne.
Qed.

Lemma mark_document_marks documents lexicon term d m :
  term ∈ lexicon → d ∈ documents →
  shaped (length lexicon) (length documents) m ∧ binary m →
  ∃ m', mark_document documents lexicon term d m = Ok m' ∧
        (shaped (length lexicon) (length documents) m' ∧ binary m') ∧
        (PyStr.contains d term = true →
         Np2.entry m' (position lexicon term) (position documents d)
         = Some F64.one) ∧
        ∀ b : nat * nat, Np2.entry m b.1 b.2 = Some F64.one →
                         Np2.entry m' b.1 b.2 = Some F64.one.
Proof.
  intros Hterm Hd [Hshape Hbin]. unfold mark_document.
  destruct (index_ok lexicon term Hterm) as (-> & _).
  destruct (index_ok documents d Hd) as (-> & _).
  rewrite !bind_ok.
  destruct (PyStr.contains d term).
  - destruct (setitem_one (length lexicon) (length documents) m
                (position lexicon term) (position documents d))
      as (m' & Hm' & Hshape' & Hbin' & Hone & Hkeep);
      [done | done | by apply position_lt.. |].
    exists m'. split_and!; auto.
  - exists m. split_and!; auto. done.
Qed.

(** The matrix of a collection is binary, and has a 1 wherever a lexicon
    term occurs in the text of a document, in the column of the first
    document with that text. *)
Lemma build_termdoc_matrix_marks documents :
  ∃ m, build_termdoc_matrix documents None = Ok m ∧
       shaped (length (build_lexicon documents)) (length documents) m ∧
       binary m ∧
       ∀ t d, t ∈ build_lexicon documents → d ∈ documents →
              PyStr.contains d t = true →
              Np2.entry m (position (build_lexicon documents) t)
                        (position documents d) = Some F64.one.
Proof.
  rewrite build_termdoc_matrix_none.
  set (lexicon := build_lexicon documents).
  set (Q := λ m, shaped (length lexicon) (length documents) m ∧ binary m).
  set (M := λ (b : nat * nat) m, Np2.entry m b.1 b.2 = Some F64.one).
  destruct (forM_cover
              (λ term m, forM (mark_document documents lexicon term) documents m)
              Q
              (λ term m, ∀ d, d ∈ documents → PyStr.contains d term = true →
                              Np2.entry m (position lexicon term)
                                        (position documents d) = Some F64.one)
              M lexicon (Np2.zeros (length lexicon) (length documents)))
    as (m & Hm & [Hshape Hbin] & Hmarks & _).
  - split; [apply zeros_shaped | apply zeros_binary].
  - intros term a Hterm Ha.
    destruct (forM_cover (mark_document documents lexicon term) Q
                (λ d m, PyStr.contains d term = true →
                        Np2.entry m (position lexicon term)
                                  (position documents d) = Some F64.one)
                M documents a Ha)
      as (a' & Ha' & HQ & HE & HM).
    + intros d a0 Hd Ha0. by apply mark_document_marks.
    + intros d a0 a1 HE HM Hc. by apply (HM (_, _)), HE.
    + exists a'. split_and!; auto.
  - intros term a a' HE HM d Hd Hc. by apply (HM (_, _)), HE.
  - exists m. split_and!; [done | done | done |].
    intros t d Ht Hd Hc. by apply Hmarks.
Qed.

Lemma column_spec nr nc m w :
  shaped nr nc m → w < nc →
  ∃ col, Np2.column m w = Ok col ∧ length col = nr ∧
         (binary m → Forall bit col) ∧
         ∀ i, Np2.entry m i w = Some F64.one → col !! i = Some F64.one.
Proof.
  intros (Hc & Hr & _) Hw. unfold Np2.column. rewrite Hc.
  destruct (Nat.ltb_spec w nc); [| lia].
  eexists. split_and!; [done | by rewrite length_map | |].
  - intros Hbin. apply Forall_map. eapply Forall_impl; [exact Hbin |].
    intros r Hrow. simpl. destruct (r !! w) as [x|] eqn:Hx; simpl.
    + rewrite Forall_forall in Hrow. by eapply Hrow, list_elem_of_lookup_2.
    + apply bit_zero.
  - intros i. unfold Np2.entry.
    rewrite (list_lookup_fmap (λ r : list spec_float, default F64.zero (r !! w))).
    destruct (rows m !! i) as [r|]; simpl; [| done]. by intros ->.
Qed.

(** ** Sums of zeros and ones *)

Lemma sum_bits l acc :
  Forall bit l → counted acc →
  counted (foldl F64.add acc l) ∧
  (counted_pos acc ∨ F64.one ∈ l → counted_pos (foldl F64.add acc l)).
Proof.
  intros Hl. revert acc. induction Hl as [|x l Hx Hl IH]; intros acc Hacc; simpl.
  - split; [done |]. intros [|?%elem_of_nil]; done.
  - destruct Hx as [-> | ->].
    + rewrite counted_add_zero by done.
      destruct (IH acc Hacc) as [Hc Hp]. split; [done |].
      intros [?|[[=]|?]%elem_of_cons]; auto.
    + pose proof (counted_add_one acc Hacc) as Hpos.
      destruct (IH _ (counted_pos_counted _ Hpos)) as [Hc Hp]. split; auto.
Qed.

Lemma products_bits v w :
  Forall bit v → Forall bit w → Forall bit (zip_with F64.mul v w).
Proof.
  intros Hv. revert w. induction Hv as [|x v Hx Hv IH]; intros w Hw; simpl.
  - constructor.
  - destruct Hw as [|y w Hy Hw]; constructor; [| by apply IH].
    rewrite mul_bits by done. destruct (_ || _); [apply bit_zero | apply bit_one].
Qed.

Lemma counted_pos_finite x : counted_pos x → ∃ s m e, x = S754_finite s m e.
Proof. intros [-> | (p & _ & ->)]; unfold float_top, float_of_pos; eauto. Qed.

Lemma norm_bits_finite v : Forall bit v → F64.is_finite (Np2.norm v) = true.
Proof.
  intros Hv. unfold Np2.norm. apply counted_sqrt_finite.
  apply sum_bits; [by apply products_bits | by left].
Qed.

(** The similarity of two binary vectors with a 1 in a common place is a
    number. *)
Lemma distance_bits v w i :
  Forall bit v → Forall bit w → length v = length w →
  v !! i = Some F64.one → w !! i = Some F64.one →
  ∃ k, distance v w = Ok k ∧ F64.is_nan k = false.
Proof.
  intros Hv Hw Hlen Hvi Hwi. unfold distance, Np2.dot.
  rewrite Hlen, Nat.eqb_refl, bind_ok. eexists. split; [done |].
  destruct (sum_bits (zip_with F64.mul v w) F64.zero) as [_ Hpos];
    [by apply products_bits | by left |].
  assert (F64.one ∈ zip_with F64.mul v w) as Hone.
  { apply list_elem_of_lookup. exists i.
    rewrite lookup_zip_with, Hvi, Hwi. reflexivity. }
  destruct (counted_pos_finite _ (Hpos (or_intror Hone))) as (s & m & e & ->).
  apply div_not_nan, mul_not_nan; by apply norm_bits_finite.
Qed.

Lemma leb_of_not_ltb x y :
  F64.is_nan x = false → F64.is_nan y = false →
  F64.ltb x y = false → F64.leb y x = true.
Proof.
  unfold F64.ltb, F64.leb, SFltb, SFleb, SFcompare.
  destruct x as [[]|[]| |[] ? ?]; simpl; try done;
    destruct y as [[]|[]| |[] ? ?]; simpl; try done;
    repeat match goal with
           | |- context [Z.compare ?a ?b] =>
               destruct (Z.compare_spec a b); subst; simpl; try lia
           | |- context [Pos.compare_cont Eq ?a ?b] =>
               change (Pos.compare_cont Eq a b) with (Pos.compare a b);
               destruct (Pos.compare_spec a b); subst; simpl; try lia
           end; try done.
Qed.

(** ** get_postings *)

Lemma getitem_spec k (d : gmap string (list nat)) :
  DefaultDict.getitem k d =
  (default [] (d !! k), <[k := default [] (d !! k)]> d).
Proof.
  unfold DefaultDict.getitem. destruct (d !! k) as [v|] eqn:Hk; simpl.
  - by rewrite insert_id.
  - done.
Qed.

Lemma lookup_postings_fold parts acc (cur : gmap string (list nat)) :
  ∃ cur',
    foldl (λ '(acc, index) part,
             let '(v, index') := DefaultDict.getitem part index in
             (acc ++ [v], index')) (acc, cur) parts
    = (acc ++ map (λ t, default [] (cur !! t)) parts, cur') ∧
    ∀ t, cur' !! t = if decide (t ∈ parts)
                     then Some (default [] (cur !! t)) else cur !! t.
Proof.
  revert acc cur. induction parts as [|part parts IH]; intros acc cur.
  - exists cur. cbn [foldl map]. rewrite app_nil_r. split; [done |].
    intros t. rewrite decide_False; [done | apply not_elem_of_nil].
  - cbn [foldl]. rewrite getitem_spec.
    set (cur1 := <[part := default [] (cur !! part)]> cur).
    assert (∀ t, default [] (cur1 !! t) = default [] (cur !! t)) as Hsame.
    { intros t. unfold cur1. destruct (decide (part = t)) as [->|Hne].
      - by rewrite lookup_insert_eq.
      - by rewrite lookup_insert_ne. }
    destruct (IH (acc ++ [default [] (cur !! part)]) cur1) as (cur' & -> & Hspec).
    exists cur'. split.
    + f_equal. rewrite <- app_assoc. f_equal. simpl. f_equal.
      apply map_ext. intros t. apply Hsame.
    + intros t. rewrite Hspec, Hsame. unfold cur1.
      destruct (decide (t ∈ parts)) as [Ht|Ht].
      * rewrite decide_True; [done | by right].
      * destruct (decide (part = t)) as [->|Hne].
        -- rewrite lookup_insert_eq. rewrite decide_True; [done | left].
        -- rewrite lookup_insert_ne by done.
           rewrite decide_False; [done |].
           intros [?|?]%elem_of_cons; done.
Qed.

Lemma lookup_postings_spec parts (index : gmap string (list nat)) :
  ∃ index',
    lookup_postings parts index
    = (map (λ t, default [] (index !! t)) parts, index') ∧
    ∀ t, index' !! t = if decide (t ∈ parts)
                       then Some (default [] (index !! t)) else index !! t.
Proof. apply (lookup_postings_fold parts [] index). Qed.

(** The candidates for a query with the tokens [parts], looked up in
    [index]: the identifiers found in the postings of every token. *)
Lemma candidates_spec parts (index : gmap string (list nat)) so args :
  map PySet.of_list (map (λ t, default [] (index !! t)) parts) = so :: args →
  set_wf (PySet.intersection_multi so args) ∧
  ∀ x, x ∈ PySet.keys (PySet.intersection_multi so args)
       ↔ ∀ t, t ∈ parts → x ∈ default [] (index !! t).
Proof.
  destruct parts as [|p parts]; [done |]. simpl. intros [= <- <-].
  destruct (intersection_multi_spec
              (PySet.of_list (default [] (index !! p)))
              (map PySet.of_list (map (λ t, default [] (index !! t)) parts)))
    as [Hwf Helem]; [apply of_list_spec |].
  split; [done |]. intros x. rewrite Helem.
  rewrite !Forall_forall.
  destruct (of_list_spec (default [] (index !! p))) as [_ ->].
  split.
  - intros [Hp Hall] t [->|Ht]%elem_of_cons; [done |].
    specialize (Hall (PySet.of_list (default [] (index !! t)))).
    apply of_list_spec, Hall.
    apply list_elem_of_fmap. eexists. split; [done |].
    apply list_elem_of_fmap. eauto.
  - intros Hall. split; [apply Hall; left |].
    intros a (l & -> & (t & -> & Ht)%list_elem_of_fmap)%list_elem_of_fmap.
    apply of_list_spec, Hall. by right.
Qed.

(** [get_postings] with an index supplied never raises. Its candidates are
    without repetition: none for a query without tokens, else the
    identifiers in the postings of every token, a token missing from the
    index counting as one with no postings. Afterwards the index has each
    query token as a key. *)
Lemma get_postings_ok query docs (index : gmap string (list nat)) :
  ∃ candidates index',
    get_postings query docs (Some index) = Ok (candidates, Some index') ∧
    NoDup (PySet.to_list candidates) ∧
    (∀ x, x ∈ PySet.to_list candidates
          ↔ PyStr.split query ≠ [] ∧
            ∀ t, t ∈ PyStr.split query → x ∈ default [] (index !! t)) ∧
    (∀ t, index' !! t = if decide (t ∈ PyStr.split query)
                        then Some (default [] (index !! t)) else index !! t).
Proof.
  unfold get_postings.
  destruct (PyStr.split query) as [|p parts] eqn:Hsplit.
  - exists PySet.empty, index. split_and!; [done | apply NoDup_nil_2 | |].
    + intros x. change (PySet.to_list PySet.empty) with (@nil nat).
      rewrite elem_of_nil. tauto.
    + intros t. rewrite decide_False; [done | apply not_elem_of_nil].
  - rewrite bind_ok.
    destruct (lookup_postings_spec (p :: parts) index) as (index' & -> & Hidx).
    destruct (map PySet.of_list _) as [|so args] eqn:Hsets; [done |].
    destruct (candidates_spec _ _ _ _ Hsets) as [[Hnd _] Helem].
    eexists _, index'. split_and!; [done | done | | done].
    intros x. unfold PySet.to_list. rewrite Helem. split; [done | tauto].
Qed.

(** ** search *)

Lemma mark_length lexicon part vec :
  length vec = length lexicon → length (mark lexicon part vec) = length lexicon.
Proof. intros Hlen. unfold mark. rewrite length_zip_with. lia. Qed.

Lemma build_vector_length query lexicon :
  length (build_vector query lexicon) = length lexicon.
Proof.
  unfold build_vector.
  assert (length (replicate (length lexicon) F64.zero) = length lexicon)
    as Hlen by apply length_replicate.
  revert Hlen. generalize (replicate (length lexicon) F64.zero) as vec.
  induction (PyStr.split query) as [|part parts IH]; intros vec Hlen; simpl.
  - done.
  - by apply IH, mark_length.
Qed.

Lemma search_key_ok nr nc tdmat vec w :
  shaped nr nc tdmat → length vec = nr → w < nc →
  (col ← Np2.column tdmat w; distance vec col) = Ok (similarity vec tdmat w).
Proof.
  intros (Hc & Hr & _) Hvec Hw.
  assert (∃ k, (col ← Np2.column tdmat w; distance vec col) = Ok k)
    as [k Hk]; [| by unfold similarity; rewrite Hk].
  unfold Np2.column. rewrite Hc.
  destruct (Nat.ltb_spec w nc); [| lia]. rewrite bind_ok.
  unfold distance, Np2.dot. rewrite length_map, Hvec, Hr, Nat.eqb_refl.
  rewrite bind_ok. eauto.
Qed.

(** [search] on a matrix with a row per lexicon term and a column for every
    candidate: no exception; the results rearrange the candidates, no result
    is followed by one of greater similarity, and results of equal
    similarity keep the order the candidate set yields them in. *)
Lemma search_spec documents query lexicon index tdmat nc candidates index' :
  get_postings query documents (Some index) = Ok (candidates, Some index') →
  shaped (length lexicon) nc tdmat →
  (∀ w, w ∈ PySet.to_list candidates → w < nc) →
  ∃ results,
    search documents query lexicon index tdmat = Ok (results, index') ∧
    results ≡ₚ PySet.to_list candidates ∧
    StronglySorted
      (λ a b,
         let sim := similarity (build_vector query lexicon) tdmat in
         F64.ltb (sim a) (sim b) = false ∧
         (F64.eqb (sim a) (sim b) = true →
          precedes (PySet.to_list candidates) a b)) results.
Proof.
  intros Hpost Hshape Hrange. unfold search, get_hits.
  rewrite Hpost, bind_ok.
  set (vec := build_vector query lexicon).
  set (key := λ w, col ← Np2.column tdmat w; distance vec col).
  assert (∀ w, w ∈ PySet.to_list candidates →
               key w = Ok (similarity vec tdmat w)) as Hkey.
  { intros w Hw. eapply search_key_ok; [done | | by apply Hrange].
    apply build_vector_length. }
  rewrite (mapM_result_ok key (similarity vec tdmat)) by done.
  rewrite bind_ok.
  destruct (sorted_reverse_spec F64.ltb F64.eqb ltb_trans ltb_irrefl
              eqb_ltb eqb_sym key (similarity vec tdmat)
              (PySet.to_list candidates) Hkey)
    as (results & -> & Hperm & Hsorted).
  exists results. by split_and!.
Qed.

(** Identifiers in the postings of the index built from [docs] are
    positions of [docs], of documents with the token. *)
Lemma built_postings_sound docs (index : gmap string (list nat)) t x :
  (∀ t, index !! t = if decide (t ∈ build_lexicon docs)
                     then Some (postings docs docs t) else None) →
  x ∈ default [] (index !! t) →
  ∃ d, docs !! x = Some d ∧ t ∈ PyStr.split d.
Proof.
  intros Hidx. rewrite Hidx.
  destruct (decide (t ∈ build_lexicon docs)); simpl.
  - apply postings_sound.
  - by intros ?%elem_of_nil.
Qed.

(** A candidate of the index built from [docs] shares a 1 with the query
    vector: its similarity is a number. *)
Lemma candidate_similarity docs query (index : gmap string (list nat)) m w :
  (∀ t, index !! t = if decide (t ∈ build_lexicon docs)
                     then Some (postings docs docs t) else None) →
  build_termdoc_matrix docs None = Ok m →
  PyStr.split query ≠ [] →
  (∀ t, t ∈ PyStr.split query → w ∈ default [] (index !! t)) →
  F64.is_nan (similarity (build_vector query (build_lexicon docs)) m w)
  = false.
Proof.
  intros Hidx Hm Hne Hw.
  destruct (build_termdoc_matrix_marks docs) as (m0 & Hm0 & Hshape & Hbin & Hmarks).
  assert (m0 = m) as -> by congruence.
  destruct (PyStr.split query) as [|t parts] eqn:Hsplit; [done |].
  assert (t ∈ PyStr.split query) as Ht by (rewrite Hsplit; left).
  specialize (Hw t ltac:(left)). rewrite Hidx in Hw.
  destruct (decide (t ∈ build_lexicon docs)) as [Hlex|];
    [| by apply elem_of_nil in Hw].
  destruct (postings_elem docs docs t w) as (d & Hd & Hdoc & Htok & ->);
    [done | done |].
  destruct (column_spec _ _ m (position docs d) Hshape) as
    (col & Hcol & Hlen & Hbits & Hone); [by apply position_lt |].
  destruct (distance_bits (build_vector query (build_lexicon docs)) col
              (position (build_lexicon docs) t)) as (k & Hk & Hnan).
  - apply build_vector_bits.
  - by apply Hbits.
  - by rewrite build_vector_length.
  - eapply build_vector_one; [by apply index_ok | done].
  - by apply Hone, Hmarks, token_contains.
  - unfold similarity. by rewrite Hcol, bind_ok, Hk.
Qed.

(** Building lexicon, index and matrix from [docs] and searching them. *)
Lemma run_search_spec docs query :
  ∃ index td_matrix candidates index' results,
    build_inverted_index docs = Ok index ∧
    build_termdoc_matrix docs None = Ok td_matrix ∧
    get_postings query docs (Some index) = Ok (candidates, Some index') ∧
    run_search docs query = Ok (results, index') ∧
    results ≡ₚ PySet.to_list candidates ∧
    Forall (λ w, F64.is_nan
                   (similarity (build_vector query (build_lexicon docs))
                               td_matrix w) = false) results ∧
    StronglySorted
      (λ a b,
         let sim := similarity (build_vector query (build_lexicon docs))
                               td_matrix in
         F64.leb (sim b) (sim a) = true ∧
         (F64.eqb (sim a) (sim b) = true →
          precedes (PySet.to_list candidates) a b)) results.
Proof.
  destruct (build_inverted_index_ok docs) as (index & Hindex & Hidx).
  destruct (build_termdoc_matrix_ok docs) as (m & Hm & Hshape).
  destruct (get_postings_ok query docs index)
    as (candidates & index' & Hpost & Hnd & Hcand & Hidx').
  destruct (search_spec docs query (build_lexicon docs) index m (length docs)
              candidates index' Hpost Hshape)
    as (results & Hsearch & Hperm & Hsorted).
  { intros w [Hne Hw]%Hcand.
    destruct (PyStr.split query) as [|t parts]; [done |].
    destruct (built_postings_sound docs index t w Hidx) as (d & Hd & _).
    - apply Hw. left.
    - by apply lookup_lt_Some in Hd. }
  assert (Forall (λ w, F64.is_nan
                         (similarity (build_vector query (build_lexicon docs))
                                     m w) = false) results) as Hnan.
  { apply Forall_forall. intros w Hw. rewrite Hperm in Hw.
    apply Hcand in Hw as [Hne Hw]. by eapply candidate_similarity. }
  exists index, m, candidates, index', results.
  split_and!; try done.
  - unfold run_search. by rewrite Hindex, bind_ok, Hm, bind_ok.
  - pose proof (StronglySorted_and _ _ _ Hnan Hsorted) as Hs.
    eapply (StronglySorted_fmap id) in Hs; [by rewrite list_fmap_id in Hs |].
    intros a b (Ha & Hb & Hlt & Htie). simpl in *.
    split; [by apply leb_of_not_ltb | done].
Qed.

Lemma get_postings_none query docs index candidates index' :
  build_inverted_index docs = Ok index →
  get_postings query docs (Some index) = Ok (candidates, index') →
  get_postings query docs None = Ok (candidates, None).
Proof.
  intros Hbuild. unfold get_postings.
  destruct (PyStr.split query) as [|p parts]; [by intros [= <- _] |].
  rewrite Hbuild, !bind_ok.
  destruct (lookup_postings _ _) as [individual_postings idx'].
  destruct (map PySet.of_list individual_postings); [done |].
  by intros [= <- _].
Qed.

(** C6: the candidates of [get_postings] are none for a query without
    tokens and else the identifiers common to the postings of all query
    tokens, a token missing from the index having no postings, whether the
    index is supplied or built by the call; [search] returns only
    identifiers of documents that have every query token as a token, and
    returns the empty list, raising nothing, when a query token is not in
    the lexicon. *)
Theorem search_conjunctive (docs : list string) (query : string) :
  (∀ index : gmap string (list nat),
      ∃ candidates index',
        get_postings query docs (Some index) = Ok (candidates, Some index') ∧
        (PyStr.split query = [] → PySet.to_list candidates = []) ∧
        ∀ d, d ∈ PySet.to_list candidates
             ↔ PyStr.split query ≠ [] ∧
               ∀ t, t ∈ PyStr.split query → d ∈ default [] (index !! t)) ∧
  (∃ index candidates results index',
      build_inverted_index docs = Ok index ∧
      get_postings query docs None = Ok (candidates, None) ∧
      run_search docs query = Ok (results, index') ∧
      (∀ d, d ∈ results ↔ d ∈ PySet.to_list candidates) ∧
      (∀ d, d ∈ PySet.to_list candidates
            ↔ PyStr.split query ≠ [] ∧
              ∀ t, t ∈ PyStr.split query → d ∈ default [] (index !! t)) ∧
      (∀ d, d ∈ results →
            ∃ doc, docs !! d = Some doc ∧
                   ∀ t, t ∈ PyStr.split query → t ∈ PyStr.split doc) ∧
      ((∃ t, t ∈ PyStr.split query ∧ t ∉ build_lexicon docs) →
       results = [])).
Proof.
  split.
  - intros index.
    destruct (get_postings_ok query docs index)
      as (candidates & index' & Hpost & _ & Hcand & _).
    exists candidates, index'. split_and!; [done | | done].
    intros Hempty. apply elem_of_nil_inv. intros d [Hne _]%Hcand. done.
  - destruct (run_search_spec docs query)
      as (index & m & candidates & index' & results &
          Hindex & _ & Hpost & Hrun & Hperm & _).
    destruct (build_inverted_index_ok docs) as (index0 & Hindex0 & Hidx).
    assert (index0 = index) as -> by congruence.
    destruct (get_postings_ok query docs index)
      as (candidates0 & index0 & Hpost0 & _ & Hcand & _).
    assert (candidates0 = candidates) as -> by congruence.
    exists index, candidates, results, index'.
    split_and!; try done.
    + by eapply get_postings_none.
    + intros d. by rewrite Hperm.
    + intros d Hd. rewrite Hperm in Hd. apply Hcand in Hd as [Hne Hd].
      destruct (PyStr.split query) as [|t0 parts] eqn:Hsplit; [done |].
      destruct (built_postings_sound docs index t0 d Hidx) as (doc & Hdoc & _);
        [apply Hd; left |].
      exists doc. split; [done |]. intros t Ht.
      destruct (built_postings_sound docs index t d Hidx) as (doc' & Hdoc' & Ht');
        [by apply Hd |].
      congruence.
    + intros (t & Ht & Hlex). apply elem_of_nil_inv. intros d Hd.
      rewrite Hperm in Hd. apply Hcand in Hd as [_ Hd].
      specialize (Hd t Ht). rewrite Hidx in Hd.
      rewrite decide_False in Hd by done. by apply elem_of_nil in Hd.
Qed.

(** C10: whatever index [get_postings] is given, its candidates have no
    identifier twice; the list [search] returns has no identifier twice and
    has exactly the identifiers of the candidate set, whatever texts or
    postings repeat. *)
Theorem search_results_distinct (docs : list string) (query : string) :
  (∀ index : gmap string (list nat),
      ∃ candidates index',
        get_postings query docs (Some index) = Ok (candidates, Some index') ∧
        NoDup (PySet.to_list candidates)) ∧
  ∃ index candidates index' results,
    build_inverted_index docs = Ok index ∧
    get_postings query docs (Some index) = Ok (candidates, Some index') ∧
    run_search docs query = Ok (results, index') ∧
    NoDup results ∧
    results ≡ₚ PySet.to_list candidates ∧
    ∀ d, d ∈ results ↔ d ∈ PySet.to_list candidates.
Proof.
  split.
  { intros index.
    destruct (get_postings_ok query docs index)
      as (candidates & index' & Hpost & Hnd & _).
    by exists candidates, index'. }
  destruct (run_search_spec docs query)
    as (index & m & candidates & index' & results &
        Hindex & _ & Hpost & Hrun & Hperm & _).
  destruct (get_postings_ok query docs index)
    as (candidates0 & index0 & Hpost0 & Hnd & _).
  assert (candidates0 = candidates) as -> by congruence.
  exists index, candidates, index', results.
  split_and!; try done.
  - by rewrite Hperm.
  - intros d. by rewrite Hperm.
Qed.

(** Repeated texts and repeated postings: both documents are "a", the
    postings of "a" are [0; 0], and the search returns [0] once. *)
Lemma search_repeated_text :
  ∃ index index',
    build_inverted_index ["a"; "a"] = Ok index ∧
    index !! "a" = Some [0; 0] ∧
    run_search ["a"; "a"] "a" = Ok ([0], index').
Proof.
  exists_ok (build_inverted_index ["a"; "a"]).
  exists_snd (run_search ["a"; "a"] "a").
  split_and!; vm_compute; reflexivity.
Qed.

(** C5, as the code has it: every similarity [search] sorts by is a number;
    in the list it returns each result has a similarity at least that of
    every later one, and results whose similarities are equal keep the order
    in which the candidate set yields them. *)
Theorem search_sorted_stable (docs : list string) (query : string) :
  ∃ index td_matrix candidates index' results,
    build_inverted_index docs = Ok index ∧
    build_termdoc_matrix docs None = Ok td_matrix ∧
    get_postings query docs (Some index) = Ok (candidates, Some index') ∧
    run_search docs query = Ok (results, index') ∧
    Forall (λ w, F64.is_nan
                   (similarity (build_vector query (build_lexicon docs))
                               td_matrix w) = false) results ∧
    StronglySorted
      (λ a b,
         let sim := similarity (build_vector query (build_lexicon docs))
                               td_matrix in
         F64.leb (sim b) (sim a) = true ∧
         (F64.eqb (sim a) (sim b) = true →
          precedes (PySet.to_list candidates) a b)) results.
Proof.
  destruct (run_search_spec docs query)
    as (index & m & candidates & index' & results &
        Hindex & Hm & Hpost & Hrun & _ & Hnan & Hsorted).
  exists index, m, candidates, index', results. by split_and!.
Qed.

(** C5 as stated fails on [tie_corpus] with the query "a": documents 1 and
    8 are the candidates, their similarities are equal, and the set yields 8
    before 1, so the result is [8; 1]. *)
Lemma search_tie_order :
  ∃ td_matrix index',
    build_termdoc_matrix tie_corpus None = Ok td_matrix ∧
    run_search tie_corpus "a" = Ok ([8; 1], index') ∧
    similarity (build_vector "a" (build_lexicon tie_corpus)) td_matrix 8 =
    similarity (build_vector "a" (build_lexicon tie_corpus)) td_matrix 1 ∧
    F64.eqb
      (similarity (build_vector "a" (build_lexicon tie_corpus)) td_matrix 8)
      (similarity (build_vector "a" (build_lexicon tie_corpus)) td_matrix 1)
    = true.
Proof.
  exists_ok (build_termdoc_matrix tie_corpus None).
  exists_snd (run_search tie_corpus "a").
  split_and!; vm_compute; reflexivity.
Qed.

(** C8, as the code has it: a query leaves every key of the index with its
    postings; what it adds is each query token the index does not have, as a
    key with no postings. A query whose tokens are all in the lexicon leaves
    the index as it was. *)
Theorem search_index_frame (docs : list string) (query : string) :
  (∀ index : gmap string (list nat),
      ∃ candidates index',
        get_postings query docs (Some index) = Ok (candidates, Some index') ∧
        (∀ t v, index !! t = Some v → index' !! t = Some v) ∧
        (∀ t, index !! t = None →
              index' !! t = if decide (t ∈ PyStr.split query)
                            then Some [] else None)) ∧
  (∃ index results index',
      build_inverted_index docs = Ok index ∧
      run_search docs query = Ok (results, index') ∧
      (∀ t v, index !! t = Some v → index' !! t = Some v) ∧
      (∀ t, index !! t = None →
            index' !! t = if decide (t ∈ PyStr.split query)
                          then Some [] else None) ∧
      ((∀ t, t ∈ PyStr.split query → t ∈ build_lexicon docs) →
       index' = index)).
Proof.
  assert (∀ (index index' : gmap string (list nat)),
            (∀ t, index' !! t = if decide (t ∈ PyStr.split query)
                                then Some (default [] (index !! t))
                                else index !! t) →
            (∀ t v, index !! t = Some v → index' !! t = Some v) ∧
            (∀ t, index !! t = None →
                  index' !! t = if decide (t ∈ PyStr.split query)
                                then Some [] else None)) as Hframe.
  { intros index index' Hidx'. split.
    - intros t v Ht. rewrite Hidx', Ht. by destruct (decide _).
    - intros t Ht. by rewrite Hidx', Ht. }
  split.
  - intros index.
    destruct (get_postings_ok query docs index)
      as (candidates & index' & Hpost & _ & _ & Hidx').
    exists candidates, index'. split; [done |]. by apply Hframe.
  - destruct (run_search_spec docs query)
      as (index & m & candidates & index' & results &
          Hindex & _ & Hpost & Hrun & _).
    destruct (build_inverted_index_ok docs) as (index0 & Hindex0 & Hidx).
    assert (index0 = index) as -> by congruence.
    destruct (get_postings_ok query docs index)
      as (candidates0 & index0 & Hpost0 & _ & _ & Hidx').
    assert (index0 = index') as -> by congruence.
    exists index, results, index'.
    destruct (Hframe index index' Hidx') as [Hkeep Hnew].
    split_and!; try done.
    intros Hlex. apply map_eq. intros t. rewrite Hidx'.
    destruct (decide (t ∈ PyStr.split query)) as [Ht|Ht]; [| done].
    rewrite Hidx, decide_True by auto. done.
Qed.

(** C8 as stated fails: on the collection ["a"] the query "b" leaves the
    index with the new key "b". *)
Lemma search_extends_index :
  ∃ index results index',
    build_inverted_index ["a"] = Ok index ∧
    run_search ["a"] "b" = Ok (results, index') ∧
    index !! "b" = None ∧ index' !! "b" = Some [] ∧ index' ≠ index.
Proof.
  exists_ok (build_inverted_index ["a"]).
  exists_fst (run_search ["a"] "b").
  exists_snd (run_search ["a"] "b").
  split_and!; [vm_compute; reflexivity.. |].
  intros Heq. apply (f_equal (λ m : gmap string (list nat), m !! "b")) in Heq.
  vm_compute in Heq. done.
Qed.

(** C4, as the code has it: on the notebook's collection the query
    "cat very" has the candidates 0, 1 and 3 and the result [3; 1; 0]; the
    similarity of document 3 is 1 - 2^-52, two float64 steps below 1. *)
Theorem search_reference_corpus :
  ∃ index td_matrix candidates,
    build_inverted_index documents = Ok index ∧
    build_termdoc_matrix documents None = Ok td_matrix ∧
    get_postings "cat very" documents (Some index)
    = Ok (candidates, Some index) ∧
    PySet.to_list candidates = [0; 1; 3] ∧
    search documents "cat very" (build_lexicon documents) index td_matrix
    = Ok ([3; 1; 0], index) ∧
    similarity (build_vector "cat very" (build_lexicon documents)) td_matrix 3
    = S754_finite false 9007199254740990 (-53).
Proof.
  exists_ok (build_inverted_index documents).
  exists_ok (build_termdoc_matrix documents None).
  exists_fst (get_postings "cat very" documents None).
  split_and!; vm_compute; reflexivity.
Qed.

(** C4 as stated fails in its last part: the similarity of the query and
    document 3 is not 1. *)
Lemma similarity_reference_not_one :
  ∃ td_matrix,
    build_termdoc_matrix documents None = Ok td_matrix ∧
    similarity (build_vector "cat very" (build_lexicon documents)) td_matrix 3
    ≠ F64.one ∧
    F64.eqb
      (similarity (build_vector "cat very" (build_lexicon documents)) td_matrix 3)
      F64.one = false.
Proof.
  exists_ok (build_termdoc_matrix documents None).
  split_and!; [vm_compute; reflexivity | | vm_compute; reflexivity].
  vm_compute. discriminate.
Qed.

(** * Further properties of the notebook's functions *)

(** ** build_vector *)

Lemma build_vector_fold lexicon parts vec i t v :
  length vec = length lexicon →
  lexicon !! i = Some t → vec !! i = Some v →
  foldl (λ vec part, mark lexicon part vec) vec parts !! i
  = Some (if decide (Np.item t ∈ Np.array parts) then F64.one else v).
Proof.
  revert vec v. induction parts as [|part parts IH]; intros vec v Hlen Ht Hv.
  - cbn [foldl]. by rewrite decide_False by apply not_elem_of_nil.
  - cbn [foldl].
    erewrite IH; [| by apply mark_length | done | by eapply mark_lookup].
    change (Np.array (part :: parts)) with (Np.item part :: Np.array parts).
    destruct (String.eqb_spec (Np.item t) (Np.item part)) as [Heq|Hne].
    + rewrite (decide_True (P := Np.item t ∈ Np.item part :: Np.array parts))
        by (rewrite Heq; left).
      by destruct (decide _).
    + destruct (decide (Np.item t ∈ Np.array parts)) as [Hin|Hin].
      * rewrite (decide_True
                   (P := Np.item t ∈ Np.item part :: Np.array parts));
          [done | by right].
      * rewrite (decide_False
                   (P := Np.item t ∈ Np.item part :: Np.array parts));
          [done |].
        intros [?|?]%elem_of_cons; done.
Qed.

(** X1: the query vector has one entry per lexicon term; the entry of a term
    is 1.0 when the term is a token of the query, NUL bytes at the end of
    either not counting, and 0.0 otherwise, so query tokens outside the
    lexicon leave no trace. *)
Theorem build_vector_spec (query : string) (lexicon : list string) :
  length (build_vector query lexicon) = length lexicon ∧
  (∀ i t, lexicon !! i = Some t →
          build_vector query lexicon !! i
          = Some (if decide (Np.item t ∈ Np.array (PyStr.split query))
                  then F64.one else F64.zero)) ∧
  ((∀ t, t ∈ PyStr.split query → Np.item t ∉ Np.array lexicon) →
   build_vector query lexicon = replicate (length lexicon) F64.zero).
Proof.
  assert (∀ i t, lexicon !! i = Some t →
                 build_vector query lexicon !! i
                 = Some (if decide (Np.item t ∈ Np.array (PyStr.split query))
                         then F64.one else F64.zero)) as Hentry.
  { intros i t Ht. unfold build_vector.
    apply build_vector_fold; [apply length_replicate | done |].
    apply lookup_replicate_2. by eapply lookup_lt_Some. }
  split_and!; [apply build_vector_length | done |].
  intros Hoov. apply list_eq. intros i.
  destruct (lexicon !! i) as [t|] eqn:Ht.
  - rewrite (Hentry i t Ht).
    rewrite decide_False.
    + symmetry. apply lookup_replicate_2. by eapply lookup_lt_Some.
    + unfold Np.array. intros (u & Heq & Hu)%list_elem_of_fmap.
      apply (Hoov u Hu). rewrite <- Heq. apply list_elem_of_fmap.
      exists t. split; [done | by eapply list_elem_of_lookup_2].
  - apply lookup_ge_None in Ht.
    rewrite !(proj2 (lookup_ge_None _ _));
      [done | by rewrite length_replicate | by rewrite build_vector_length].
Qed.

(** ** distance *)

Lemma mul_comm x y : F64.mul x y = F64.mul y x.
Proof.
  unfold F64.mul, SFmul.
  destruct x as [sx|sx| |sx mx ex], y as [sy|sy| |sy my ey];
    try done; rewrite ?(xorb_comm sx sy); try done.
  by rewrite Pos.mul_comm, Z.add_comm.
Qed.

Lemma products_comm v w : zip_with F64.mul v w = zip_with F64.mul w v.
Proof.
  revert w. induction v as [|x v IH]; intros [|y w]; simpl; try done.
  by rewrite mul_comm, IH.
Qed.

(** X2: cosine similarity does not depend on the order of its arguments,
    raises ValueError exactly on vectors of different lengths and returns a
    value otherwise. *)
Theorem distance_symmetric (v w : list spec_float) :
  distance v w = distance w v ∧
  (distance v w = Raise ValueError ↔ length v ≠ length w) ∧
  (length v = length w ↔ ∃ k, distance v w = Ok k).
Proof.
  unfold distance, Np2.dot. split_and!.
  - rewrite (Nat.eqb_sym (length w)), products_comm.
    by rewrite (mul_comm (Np2.norm v)).
  - destruct (Nat.eqb_spec (length v) (length w)); rewrite ?bind_ok; split;
      done.
  - destruct (Nat.eqb_spec (length v) (length w)); rewrite ?bind_ok; split;
      try done; [eauto | by intros [k ?]].
Qed.

(** ** build_lexicon *)

Lemma str_lt_asym a b : PyStr.lt a b → PyStr.lt b a → a = b.
Proof.
  intros Hab Hba. destruct (str_lt_irrefl a). by eapply str_lt_trans.
Qed.

Lemma str_leb_antisym a b :
  String.leb a b = true → String.leb b a = true → a = b.
Proof.
  intros Hab Hba. destruct (decide (a = b)) as [|Hne]; [done |].
  apply str_lt_asym; apply str_leb_lt; congruence.
Qed.

Lemma str_leb_trans a b c :
  String.leb a b = true → String.leb b c = true → String.leb a c = true.
Proof.
  intros Hab Hbc.
  destruct (decide (a = b)) as [->|Hne]; [done |].
  destruct (decide (b = c)) as [<-|Hne']; [done |].
  pose proof (str_lt_trans a b c (str_leb_lt _ _ Hab Hne)
                (str_leb_lt _ _ Hbc Hne')) as Hlt.
  unfold PyStr.lt in Hlt. unfold String.leb. by rewrite Hlt.
Qed.

(** Sorting is blind to the order of the list it is given. *)
Lemma np_sort_ext l l' : l ≡ₚ l' → Np.sort l = Np.sort l'.
Proof.
  intros Hperm.
  apply (StronglySorted_unique_strong (λ a b, String.leb a b = true)).
  - intros a b _ _. apply str_leb_antisym.
  - apply Sorted_StronglySorted; [| apply np_sort_sorted].
    intros a b c. apply str_leb_trans.
  - apply Sorted_StronglySorted; [| apply np_sort_sorted].
    intros a b c. apply str_leb_trans.
  - rewrite !np_sort_perm. unfold Np.array. by apply Permutation_map.
Qed.

(** X3: the lexicon depends only on which tokens occur in the collection:
    two collections with the same tokens, in whatever order and however
    often, have the same lexicon. *)
Theorem build_lexicon_tokens (docs docs' : list string) :
  (∀ t, (∃ d, d ∈ docs ∧ t ∈ PyStr.split d)
        ↔ (∃ d, d ∈ docs' ∧ t ∈ PyStr.split d)) →
  build_lexicon docs = build_lexicon docs'.
Proof.
  intros Hsame. unfold build_lexicon. apply np_sort_ext.
  apply NoDup_Permutation;
    [apply lexicon_docs_nodup, NoDup_nil_2.. |].
  intros t. rewrite !lexicon_docs_elem, elem_of_nil.
  specialize (Hsame t). tauto.
Qed.

Lemma build_lexicon_tokens_witness :
  (∀ t, (∃ d, d ∈ ["b a"; "a"] ∧ t ∈ PyStr.split d)
        ↔ (∃ d, d ∈ ["a b"] ∧ t ∈ PyStr.split d)) ∧
  build_lexicon ["b a"; "a"] = build_lexicon ["a b"].
Proof.
  assert (∀ t, (∃ d, d ∈ ["b a"; "a"] ∧ t ∈ PyStr.split d)
               ↔ (∃ d, d ∈ ["a b"] ∧ t ∈ PyStr.split d)) as Hsame.
  { intros t. split.
    - intros (d & Hd & Ht). exists "a b". split; [left |].
      change (PyStr.split "a b") with ["a"; "b"].
      apply elem_of_cons in Hd as [->|Hd].
      + change (PyStr.split "b a") with ["b"; "a"] in Ht.
        apply elem_of_cons in Ht as [->|Ht]; [right; left |].
        apply list_elem_of_singleton in Ht as ->. left.
      + apply list_elem_of_singleton in Hd as ->.
        change (PyStr.split "a") with ["a"] in Ht.
        apply list_elem_of_singleton in Ht as ->. left.
    - intros (d & Hd & Ht). exists "b a". split; [left |].
      apply list_elem_of_singleton in Hd as ->.
      change (PyStr.split "a b") with ["a"; "b"] in Ht.
      change (PyStr.split "b a") with ["b"; "a"].
      apply elem_of_cons in Ht as [->|Ht]; [right; left |].
      apply list_elem_of_singleton in Ht as ->. left. }
  split; [exact Hsame |].
  exact (build_lexicon_tokens _ _ Hsame).
Defined.

Lemma string_app_nil_r (s : string) : (s ++ "")%string = s.
Proof.
  induction s as [|c s IH]; [done |]. by rewrite string_app_cons, IH.
Qed.

Lemma split_from_unspaced tok s :
  unspaced s →
  PyStr.split_from tok s
  = if String.eqb (tok ++ s)%string "" then [] else [(tok ++ s)%string].
Proof.
  unfold unspaced. revert tok.
  induction s as [|c s IH]; intros tok Hs; simpl.
  - by rewrite string_app_nil_r.
  - apply Forall_cons in Hs as [-> Hs]. rewrite IH by done.
    by rewrite string_app_assoc, string_app_cons, string_app_nil_l.
Qed.

(** A token read back as a text is that one token. *)
Lemma split_token t : t ≠ "" → unspaced t → PyStr.split t = [t].
Proof.
  intros Hne Ht. unfold PyStr.split.
  rewrite split_from_unspaced, string_app_nil_l by done.
  by destruct (String.eqb_spec t "").
Qed.

(** A lexicon term that is a token of a document is a text of that one
    token. *)
Lemma lexicon_term_tokens docs t :
  plain_tokens docs = true → t ∈ build_lexicon docs → PyStr.split t = [t].
Proof.
  intros Hplain Ht.
  destruct (build_lexicon_sound docs t Hplain Ht)
    as (d & _ & [Hne Hun]%split_tokens).
  by apply split_token.
Qed.

Lemma lexicon_plain docs :
  plain_tokens docs = true → plain_tokens (build_lexicon docs) = true.
Proof.
  intros Hplain. apply plain_tokens_spec. intros d t Hd Ht.
  rewrite (lexicon_term_tokens docs d) in Ht by done.
  apply list_elem_of_singleton in Ht as ->.
  pose proof (build_lexicon_items docs) as Hitems.
  rewrite Forall_forall in Hitems. by apply Hitems.
Qed.

(** X4: for a collection none of whose tokens ends in a NUL byte, the
    lexicon of the lexicon is that lexicon: its terms are single tokens,
    already in order and without repetition. *)
Theorem build_lexicon_idempotent (docs : list string) :
  plain_tokens docs = true →
  build_lexicon (build_lexicon docs) = build_lexicon docs.
Proof.
  intros Hplain.
  pose proof (lexicon_plain docs Hplain) as Hplain'.
  apply (StronglySorted_unique_strong PyStr.lt).
  - intros a b _ _. apply str_lt_asym.
  - apply sorted_nodup_strict;
      [apply np_sort_sorted | by apply build_lexicon_nodup].
  - apply sorted_nodup_strict;
      [apply np_sort_sorted | by apply build_lexicon_nodup].
  - apply NoDup_Permutation; [by apply build_lexicon_nodup.. |].
    intros t. split.
    + intros (u & Hu & Ht)%build_lexicon_sound; [| done].
      rewrite (lexicon_term_tokens docs u) in Ht by done.
      by apply list_elem_of_singleton in Ht as ->.
    + intros Ht. apply (build_lexicon_token _ t); [done | |].
      * rewrite (lexicon_term_tokens docs t) by done. left.
      * pose proof (build_lexicon_items docs) as Hitems.
        rewrite Forall_forall in Hitems. by apply Hitems.
Qed.

Lemma build_lexicon_idempotent_witness :
  plain_tokens ["the cat"; "a cat sat"] = true ∧
  build_lexicon (build_lexicon ["the cat"; "a cat sat"])
  = build_lexicon ["the cat"; "a cat sat"].
Proof.
  assert (plain_tokens ["the cat"; "a cat sat"] = true) as Hplain
    by reflexivity.
  split; [exact Hplain |].
  exact (build_lexicon_idempotent ["the cat"; "a cat sat"] Hplain).
Defined.

(** ** build_inverted_index *)

Lemma postings_first documents t d :
  d ∈ documents → t ∈ PyStr.split d →
  position documents d ∈ postings documents documents t.
Proof.
  intros Hd Ht. unfold postings. apply list_elem_of_fmap.
  exists d. split; [done |].
  apply list_elem_of_filter. split; [by apply mem_spec | done].
Qed.

Lemma postings_nonempty documents t :
  postings documents documents t ≠ []
  ↔ ∃ d, d ∈ documents ∧ t ∈ PyStr.split d.
Proof.
  split.
  - intros Hne.
    destruct (postings documents documents t) as [|i l] eqn:Hp; [done |].
    destruct (postings_elem documents documents t i)
      as (d & Hd & _ & Ht & _); [done | rewrite Hp; left |]. eauto.
  - intros (d & Hd & Ht) Hnil.
    pose proof (postings_first documents t d Hd Ht) as Hin.
    rewrite Hnil in Hin. by apply elem_of_nil in Hin.
Qed.

(** X5: the index of any collection is built without an exception; its keys
    are the lexicon terms; the postings of a key are positions of documents
    that have the key as a token, and there are some exactly when some
    document has it as a token; and for every document with a token that
    does not end in a NUL byte, the first position holding the text of the
    document is among the postings of the token. *)
Theorem build_inverted_index_spec (docs : list string) :
  ∃ index,
    build_inverted_index docs = Ok index ∧
    (∀ t, is_Some (index !! t) ↔ t ∈ build_lexicon docs) ∧
    (∀ t l, index !! t = Some l →
            (l ≠ [] ↔ ∃ d, d ∈ docs ∧ t ∈ PyStr.split d) ∧
            ∀ i, i ∈ l → ∃ d, docs !! i = Some d ∧ t ∈ PyStr.split d) ∧
    (∀ j d t, docs !! j = Some d → t ∈ PyStr.split d →
              ends_nul t = false →
              ∃ l i, index !! t = Some l ∧ i ∈ l ∧ i ≤ j ∧
                     docs !! i = Some d).
Proof.
  destruct (build_inverted_index_ok docs) as (index & Hindex & Hidx).
  exists index. split_and!; [done | | |].
  - intros t. rewrite Hidx.
    destruct (decide _); split; try done; by intros [? ?].
  - intros t l. rewrite Hidx.
    destruct (decide (t ∈ build_lexicon docs)); [| done].
    intros [= <-]. split; [apply postings_nonempty |].
    apply postings_sound.
  - intros j d t Hj Ht Hplain.
    assert (d ∈ docs) as Hd by (by eapply list_elem_of_lookup_2).
    exists (postings docs docs t), (position docs d).
    rewrite Hidx, decide_True by (by eapply build_lexicon_token).
    destruct (index_ok docs d Hd) as (_ & Hpos & Hmin).
    split_and!; [done | by apply postings_first | | done].
    destruct (Nat.le_gt_cases (position docs d) j) as [|Hlt]; [done |].
    by destruct (Hmin j Hlt).
Qed.

Lemma positions_increasing (P : string → Prop) `{!∀ d, Decision (P d)}
    (pre suf : list string) :
  NoDup (pre ++ suf) →
  StronglySorted lt (map (position (pre ++ suf)) (filter P suf)) ∧
  Forall (λ i, length pre ≤ i) (map (position (pre ++ suf)) (filter P suf)).
Proof.
  revert pre. induction suf as [|x suf IH]; intros pre Hnd.
  - rewrite filter_nil. simpl. split; constructor.
  - destruct (IH (pre ++ [x])) as [Hs Hge].
    { by rewrite <- app_assoc. }
    rewrite <- app_assoc in Hs, Hge. simpl in Hs, Hge.
    rewrite length_app in Hge. simpl in Hge.
    rewrite filter_cons. destruct (decide (P x)); simpl.
    + assert (position (pre ++ x :: suf) x = length pre) as Hx.
      { apply position_nodup; [done |]. by apply list_lookup_middle. }
      rewrite Hx. split.
      * constructor; [done |]. eapply Forall_impl; [exact Hge |].
        simpl. lia.
      * constructor; [done |]. eapply Forall_impl; [exact Hge |].
        simpl. lia.
    + split; [done |]. eapply Forall_impl; [exact Hge |]. simpl. lia.
Qed.

(** X6: when no two documents have the same text, the postings of a term
    are exactly the positions of the documents that have it as a token, in
    increasing order. *)
Theorem build_inverted_index_distinct (docs : list string) :
  NoDup docs →
  ∃ index,
    build_inverted_index docs = Ok index ∧
    ∀ t l, index !! t = Some l →
           StronglySorted lt l ∧
           ∀ i, i ∈ l ↔ ∃ d, docs !! i = Some d ∧ t ∈ PyStr.split d.
Proof.
  intros Hnd.
  destruct (build_inverted_index_ok docs) as (index & Hindex & Hidx).
  exists index. split; [done |]. intros t l. rewrite Hidx.
  destruct (decide (t ∈ build_lexicon docs)); [| done].
  intros [= <-]. split.
  - apply (positions_increasing
             (λ d, PyList.mem t (PyStr.split d) = true) [] docs Hnd).
  - intros i. split; [apply postings_sound |].
    intros (d & Hd & Ht). by eapply postings_complete.
Qed.

Lemma build_inverted_index_distinct_witness :
  NoDup ["a b"; "b"] ∧
  ∃ index,
    build_inverted_index ["a b"; "b"] = Ok index ∧
    ∀ t l, index !! t = Some l →
           StronglySorted lt l ∧
           ∀ i, i ∈ l ↔ ∃ d, ["a b"; "b"] !! i = Some d ∧ t ∈ PyStr.split d.
Proof.
  assert (NoDup ["a b"; "b"]) as Hnd.
  { apply NoDup_cons. split; [| apply NoDup_singleton].
    by intros ?%list_elem_of_singleton. }
  split; [exact Hnd |].
  exact (build_inverted_index_distinct _ Hnd).
Defined.

Lemma index_from_app n x l l' :
  x ∈ l → PyList.index_from n x (l ++ l') = PyList.index_from n x l.
Proof.
  revert n. induction l as [|y l IH]; intros n Hx; simpl.
  - by apply elem_of_nil in Hx.
  - destruct (String.eqb_spec y x) as [->|Hne]; [done |].
    apply elem_of_cons in Hx as [->|Hx]; [done |]. by apply IH.
Qed.

Lemma position_app l l' x : x ∈ l → position (l ++ l') x = position l x.
Proof.
  intros Hx. unfold position, PyList.index. by rewrite index_from_app.
Qed.

Lemma postings_none documents t :
  ends_nul t = false → t ∉ build_lexicon documents →
  postings documents documents t = [].
Proof.
  intros Hplain Ht.
  destruct (postings documents documents t) as [|i l] eqn:Hp; [done |].
  destruct (proj1 (postings_nonempty documents t)) as (d & Hd & Htok).
  { by rewrite Hp. }
  destruct Ht. by eapply build_lexicon_token.
Qed.

(** X7: a document none of whose tokens ends in a NUL byte, added at the
    end of a collection, changes the index only at its own tokens, where one
    identifier is appended to the postings (a new key starting from none):
    the position at which the text of the document first stands. *)
Theorem build_inverted_index_append (docs : list string) (d : string) :
  plain_tokens [d] = true →
  ∃ index index',
    build_inverted_index docs = Ok index ∧
    build_inverted_index (docs ++ [d]) = Ok index' ∧
    ∀ t, index' !! t =
         if decide (t ∈ PyStr.split d)
         then Some (default [] (index !! t) ++ [position (docs ++ [d]) d])
         else index !! t.
Proof.
  intros Hplain.
  assert (∀ t, t ∈ PyStr.split d → ends_nul t = false) as Hd.
  { intros t Ht. eapply plain_tokens_spec; [done | left | done]. }
  destruct (build_inverted_index_ok docs) as (index & Hindex & Hidx).
  destruct (build_inverted_index_ok (docs ++ [d])) as (index' & Hindex' & Hidx').
  exists index, index'. split_and!; [done | done |].
  intros t. rewrite Hidx', Hidx.
  assert (postings (docs ++ [d]) (docs ++ [d]) t
          = postings docs docs t ++
            (if decide (t ∈ PyStr.split d)
             then [position (docs ++ [d]) d] else [])) as Hpost.
  { unfold postings. rewrite filter_app, map_app. f_equal.
    - apply map_ext_in. intros d' Hd'%list_elem_of_In.
      apply list_elem_of_filter in Hd' as [_ Hd']. by apply position_app.
    - rewrite filter_cons, filter_nil.
      destruct (decide (t ∈ PyStr.split d)) as [Ht|Ht].
      + rewrite decide_True; [done | by apply mem_spec].
      + rewrite decide_False; [done | by rewrite mem_spec]. }
  assert (t ∈ build_lexicon (docs ++ [d])
          ↔ t ∈ build_lexicon docs ∨ t ∈ PyStr.split d) as Hlex.
  { rewrite !build_lexicon_elem. split.
    - intros (d' & u & [Hd'| ->%list_elem_of_singleton]%elem_of_app
              & Hu & ->); [left; eauto |].
      right. by rewrite item_plain by auto.
    - intros [(d' & u & Hd' & Hu & ->)|Ht].
      + exists d', u. split_and!; [apply elem_of_app; by left | done | done].
      + exists d, t. split_and!; [apply elem_of_app; right; left | done |].
        by rewrite item_plain by auto. }
  rewrite Hpost.
  destruct (decide (t ∈ PyStr.split d)) as [Ht|Ht].
  - rewrite decide_True by (apply Hlex; by right).
    destruct (decide (t ∈ build_lexicon docs)) as [|Hno]; simpl; [done |].
    by rewrite (postings_none docs t (Hd t Ht) Hno).
  - rewrite app_nil_r.
    destruct (decide (t ∈ build_lexicon docs)) as [Hyes|Hno].
    + rewrite decide_True; [done | apply Hlex; by left].
    + rewrite decide_False; [done | rewrite Hlex; tauto].
Qed.

Lemma build_inverted_index_append_witness :
  plain_tokens ["b c"] = true ∧
  ∃ index index',
    build_inverted_index ["a b"] = Ok index ∧
    build_inverted_index (["a b"] ++ ["b c"]) = Ok index' ∧
    ∀ t, index' !! t =
         if decide (t ∈ PyStr.split "b c")
         then Some (default [] (index !! t)
                    ++ [position (["a b"] ++ ["b c"]) "b c"])
         else index !! t.
Proof.
  assert (plain_tokens ["b c"] = true) as Hplain by reflexivity.
  split; [exact Hplain |].
  exact (build_inverted_index_append ["a b"] "b c" Hplain).
Defined.

(** ** build_termdoc_matrix *)

Lemma setitem_entries m i j v m' i' j' x :
  Np2.setitem m i j v = Ok m' → Np2.entry m' i' j' = Some x →
  (i' = i ∧ j' = j ∧ x = v) ∨ Np2.entry m i' j' = Some x.
Proof.
  unfold Np2.setitem. destruct (_ && _); [| done]. intros [= <-].
  unfold Np2.entry. simpl.
  destruct (decide (i = i')) as [<-|Hne].
  - rewrite list_lookup_alter_eq.
    destruct (rows m !! i) as [r|]; simpl; [| done].
    intros [(-> & -> & _)|[_ Hx]]%list_lookup_insert_Some; auto.
  - rewrite list_lookup_alter_ne by done. auto.
Qed.

Lemma occurs_at_intro documents t d :
  d ∈ documents → PyStr.contains d t = true →
  occurs_at documents t (position documents d) = true.
Proof.
  intros Hd Hc. unfold occurs_at. apply existsb_exists.
  exists d. split; [by apply list_elem_of_In |].
  by rewrite Nat.eqb_refl, Hc.
Qed.

Lemma marked_at_intro documents lexicon t d :
  t ∈ lexicon → d ∈ documents → PyStr.contains d t = true →
  marked_at documents lexicon (position lexicon t) (position documents d)
  = true.
Proof.
  intros Ht Hd Hc. unfold marked_at. apply existsb_exists.
  exists t. split; [by apply list_elem_of_In |].
  by rewrite Nat.eqb_refl, occurs_at_intro.
Qed.

Lemma marked_at_elim documents lexicon i j :
  marked_at documents lexicon i j = true →
  ∃ t d, t ∈ lexicon ∧ d ∈ documents ∧ position lexicon t = i ∧
         position documents d = j ∧ PyStr.contains d t = true.
Proof.
  unfold marked_at, occurs_at. intros (t & Ht & Hm)%existsb_exists.
  apply andb_true_iff in Hm as [Hi (d & Hd & Hm)%existsb_exists].
  apply andb_true_iff in Hm as [Hj Hc].
  exists t, d. split_and!; try done;
    [by apply list_elem_of_In.. | by apply Nat.eqb_eq | by apply Nat.eqb_eq].
Qed.

Lemma mark_document_justified documents lexicon term d m :
  term ∈ lexicon → d ∈ documents → justified documents lexicon m →
  ∃ m', mark_document documents lexicon term d m = Ok m' ∧
        justified documents lexicon m' ∧
        (PyStr.contains d term = true →
         Np2.entry m' (position lexicon term) (position documents d)
         = Some F64.one) ∧
        ∀ b : nat * nat, Np2.entry m b.1 b.2 = Some F64.one →
                         Np2.entry m' b.1 b.2 = Some F64.one.
Proof.
  intros Hterm Hd [HQ Hjust].
  destruct (mark_document_marks documents lexicon term d m Hterm Hd HQ)
    as (m' & Hm' & HQ' & Hmark & Hkeep).
  exists m'. split_and!; try done. split; [done |].
  intros i j Hone. unfold mark_document in Hm'.
  destruct (index_ok lexicon term Hterm) as (Hti & _).
  destruct (index_ok documents d Hd) as (Hdi & _).
  rewrite Hti, Hdi, !bind_ok in Hm'.
  destruct (PyStr.contains d term) eqn:Hc.
  - destruct (setitem_entries _ _ _ _ _ _ _ _ Hm' Hone)
      as [(-> & -> & _)|Hold]; [| by apply Hjust].
    by apply marked_at_intro.
  - injection Hm' as <-. by apply Hjust.
Qed.

(** The two loops keep the shape, put a 1.0 only where a term occurs, and
    put one wherever a term occurs. *)
Lemma termdoc_loops_justified docs l :
  ∃ m,
    forM (λ term m, forM (mark_document docs l term) docs m) l
         (Np2.zeros (length l) (length docs)) = Ok m ∧
    justified docs l m ∧
    ∀ term d, term ∈ l → d ∈ docs → PyStr.contains d term = true →
              Np2.entry m (position l term) (position docs d) = Some F64.one.
Proof.
  set (M := λ (b : nat * nat) m, Np2.entry m b.1 b.2 = Some F64.one).
  destruct (forM_cover
              (λ term m, forM (mark_document docs l term) docs m)
              (justified docs l)
              (λ term m, ∀ d, d ∈ docs → PyStr.contains d term = true →
                              Np2.entry m (position l term) (position docs d)
                              = Some F64.one)
              M l (Np2.zeros (length l) (length docs)))
    as (m & Hm & Hjust & Hmarks & _).
  - split; [split; [apply zeros_shaped | apply zeros_binary] |].
    intros i j. unfold Np2.entry, Np2.zeros. simpl.
    intros Hone. apply bind_Some in Hone as (r & Hr & Hx).
    apply lookup_replicate in Hr as [-> _].
    by apply lookup_replicate in Hx as [? _].
  - intros term a Hterm Ha.
    destruct (forM_cover (mark_document docs l term) (justified docs l)
                (λ d m, PyStr.contains d term = true →
                        Np2.entry m (position l term) (position docs d)
                        = Some F64.one)
                M docs a Ha)
      as (a' & Ha' & HQ & HE & HM).
    + intros d a0 Hd Ha0. by apply mark_document_justified.
    + intros d a0 a1 HE HM Hc. by apply (HM (_, _)), HE.
    + exists a'. split_and!; auto.
  - intros term a a' HE HM d Hd Hc. by apply (HM (_, _)), HE.
  - exists m. split_and!; [done | done |]. intros term d Hterm. by apply Hmarks.
Qed.

Lemma build_termdoc_matrix_loops docs lexicon :
  build_termdoc_matrix docs lexicon
  = if ambiguous lexicon then Raise ValueError
    else forM (λ term m,
                 forM (mark_document docs (terms docs lexicon) term) docs m)
              (terms docs lexicon)
              (Np2.zeros (length (terms docs lexicon)) (length docs)).
Proof. by destruct lexicon as [[|? [|? ?]]|]. Qed.

Lemma terms_length docs lexicon :
  length (terms docs lexicon) = length (default (build_lexicon docs) lexicon).
Proof. destruct lexicon; simpl; [apply length_map | done]. Qed.

Lemma entry_bit nr nc m i j :
  shaped nr nc m → binary m → i < nr → j < nc →
  ∃ x, Np2.entry m i j = Some x ∧ bit x.
Proof.
  intros (Hc & Hr & Hall) Hbin Hi Hj.
  destruct (lookup_lt_is_Some_2 (rows m) i) as [r Hrow]; [lia |].
  assert (length r = nc) as Hlen.
  { rewrite Forall_forall in Hall. by eapply Hall, list_elem_of_lookup_2. }
  destruct (lookup_lt_is_Some_2 r j) as [x Hx]; [lia |].
  exists x. split.
  - unfold Np2.entry. by rewrite Hrow.
  - unfold binary in Hbin. rewrite Forall_forall in Hbin.
    specialize (Hbin r ltac:(by eapply list_elem_of_lookup_2)).
    rewrite Forall_forall in Hbin.
    by eapply Hbin, list_elem_of_lookup_2.
Qed.

(** X8: without a lexicon, and with an array of at most one term handed
    over as the lexicon, the matrix is built without an exception, with a
    row per term and a column per document; the entry in row [i] and column
    [j] is 1.0 when a term whose first position among the terms is [i]
    occurs in the text of a document whose first position in the collection
    is [j], and 0.0 otherwise. With an array of two or more terms the call
    raises ValueError, at [lexicon == None]. *)
Theorem build_termdoc_matrix_entries (docs : list string)
    (lexicon : option (list string)) :
  if ambiguous lexicon
  then build_termdoc_matrix docs lexicon = Raise ValueError
  else
    ∃ m,
      build_termdoc_matrix docs lexicon = Ok m ∧
      ncols m = length docs ∧
      length (rows m) = length (terms docs lexicon) ∧
      ∀ i j, i < length (terms docs lexicon) → j < length docs →
             Np2.entry m i j
             = Some (if marked_at docs (terms docs lexicon) i j
                     then F64.one else F64.zero).
Proof.
  rewrite build_termdoc_matrix_loops.
  destruct (ambiguous lexicon); [done |].
  set (l := terms docs lexicon).
  destruct (termdoc_loops_justified docs l)
    as (m & Hm & [[Hshape Hbin] Hjust] & Hmarks).
  exists m. split_and!; [done | apply Hshape | apply Hshape |].
  intros i j Hi Hj.
  destruct (entry_bit _ _ m i j Hshape Hbin Hi Hj) as (x & Hentry & Hx).
  destruct (marked_at docs l i j) eqn:Hmarked.
  - apply marked_at_elim in Hmarked as (t & d & Ht & Hd & <- & <- & Hcont).
    by apply Hmarks.
  - rewrite Hentry. f_equal. destruct Hx as [-> | ->]; [done |].
    rewrite (Hjust i j Hentry) in Hmarked. done.
Qed.

(** X9: where the matrix is built (without a lexicon, or with an array of
    at most one term), the column of a document whose text stands earlier
    in the collection is all 0.0, whatever the text: the loops mark the
    first position of a text only. *)
Theorem termdoc_matrix_repeated_column (docs : list string)
    (lexicon : option (list string)) (j : nat) (d : string) :
  docs !! j = Some d → position docs d ≠ j → ambiguous lexicon = false →
  ∃ m,
    build_termdoc_matrix docs lexicon = Ok m ∧
    ∀ i, i < length (default (build_lexicon docs) lexicon) →
         Np2.entry m i j = Some F64.zero.
Proof.
  intros Hd Hpos Hamb. rewrite build_termdoc_matrix_loops, Hamb.
  rewrite <- terms_length.
  set (l := terms docs lexicon).
  destruct (termdoc_loops_justified docs l)
    as (m & Hm & [[Hshape Hbin] Hjust] & _).
  exists m. split; [done |]. intros i Hi.
  destruct (entry_bit _ _ m i j Hshape Hbin Hi) as (x & Hentry & Hx).
  { by apply lookup_lt_Some in Hd. }
  destruct Hx as [-> | ->]; [done |].
  apply Hjust, marked_at_elim in Hentry
    as (t & d' & _ & Hd' & _ & Hj & _).
  destruct (index_ok docs d' Hd') as (_ & Hat & _).
  rewrite Hj, Hd in Hat. injection Hat as <-. done.
Qed.

Lemma termdoc_matrix_repeated_column_witness :
  ["a b"; "c"; "a b"] !! 2 = Some "a b" ∧
  position ["a b"; "c"; "a b"] "a b" ≠ 2 ∧
  ambiguous None = false ∧
  ∃ m,
    build_termdoc_matrix ["a b"; "c"; "a b"] None = Ok m ∧
    ∀ i, i < length (default (build_lexicon ["a b"; "c"; "a b"]) None) →
         Np2.entry m i 2 = Some F64.zero.
Proof.
  assert (["a b"; "c"; "a b"] !! 2 = Some "a b") as Hd by reflexivity.
  assert (position ["a b"; "c"; "a b"] "a b" ≠ 2) as Hpos by (by vm_compute).
  assert (ambiguous None = false) as Hamb by reflexivity.
  split_and!; [exact Hd | exact Hpos | exact Hamb |].
  exact (termdoc_matrix_repeated_column _ None 2 "a b" Hd Hpos Hamb).
Defined.

(** X10: whatever the index lists is marked in the matrix: for every key of
    the index built from a collection and every identifier in its postings,
    the matrix built from the collection has 1.0 in the row of the key and
    the column of the identifier. *)
Theorem postings_marked (docs : list string) :
  ∃ index m,
    build_inverted_index docs = Ok index ∧
    build_termdoc_matrix docs None = Ok m ∧
    ∀ t l j, index !! t = Some l → j ∈ l →
             Np2.entry m (position (build_lexicon docs) t) j = Some F64.one.
Proof.
  destruct (build_inverted_index_ok docs) as (index & Hindex & Hidx).
  destruct (build_termdoc_matrix_marks docs) as (m & Hm & _ & _ & Hmarks).
  exists index, m. split_and!; [done | done |].
  intros t l j Hl Hj. rewrite Hidx in Hl.
  destruct (decide (t ∈ build_lexicon docs)) as [Ht|]; [| done].
  injection Hl as <-.
  apply postings_elem in Hj as (d & Hd & _ & Htok & ->); [| done].
  apply Hmarks; [done | done |]. by apply token_contains.
Qed.

(** ** get_postings *)

(** X11: with one index, a query that has every token of another (which has
    at least one) gets no candidate the other does not get; both calls
    return. *)
Theorem get_postings_antitone (q q' : string) (docs : list string)
    (index : gmap string (list nat)) :
  tokens_within q q' → PyStr.split q ≠ [] →
  ∃ c c' i i',
    get_postings q docs (Some index) = Ok (c, i) ∧
    get_postings q' docs (Some index) = Ok (c', i') ∧
    ∀ x, x ∈ PySet.to_list c' → x ∈ PySet.to_list c.
Proof.
  intros Hsub Hne.
  destruct (get_postings_ok q docs index) as (c & i & Hq & _ & Hc & _).
  destruct (get_postings_ok q' docs index) as (c' & i' & Hq' & _ & Hc' & _).
  exists c, c', (Some i), (Some i'). split_and!; [done | done |].
  intros x [_ Hx]%Hc'. apply Hc. split; [done |].
  intros t Ht. by apply Hx, Hsub.
Qed.

Lemma get_postings_antitone_witness :
  ∃ c c' i i',
    get_postings "cat" documents (Some {[ "cat" := [0; 3]; "very" := [3] ]})
    = Ok (c, i) ∧
    get_postings "very cat" documents
                 (Some {[ "cat" := [0; 3]; "very" := [3] ]})
    = Ok (c', i') ∧
    ∀ x, x ∈ PySet.to_list c' → x ∈ PySet.to_list c.
Proof.
  apply get_postings_antitone.
  - intros t Ht.
    assert (PyStr.split "cat" = ["cat"]) as E by reflexivity.
    assert (PyStr.split "very cat" = ["very"; "cat"]) as -> by reflexivity.
    rewrite E in Ht. apply list_elem_of_singleton in Ht as ->.
    right. left.
  - by vm_compute.
Defined.

(** X12: a second call with the same query on the index the first call left
    returns the same set of candidates and leaves that index as it is. *)
Theorem get_postings_repeat (query : string) (docs : list string)
    (index : gmap string (list nat)) :
  ∃ candidates index',
    get_postings query docs (Some index) = Ok (candidates, Some index') ∧
    get_postings query docs (Some index') = Ok (candidates, Some index').
Proof.
  unfold get_postings.
  destruct (PyStr.split query) as [|p parts] eqn:Hsplit.
  - by exists PySet.empty, index.
  - rewrite !bind_ok.
    destruct (lookup_postings_spec (p :: parts) index) as (index' & Hl & Hidx).
    destruct (lookup_postings_spec (p :: parts) index')
      as (index'' & Hl' & Hidx').
    assert (map (λ t, default [] (index' !! t)) (p :: parts)
            = map (λ t, default [] (index !! t)) (p :: parts)) as Hsame.
    { apply map_ext_in. intros t Ht%list_elem_of_In.
      rewrite Hidx. by rewrite decide_True by done. }
    assert (index'' = index') as ->.
    { apply map_eq. intros t. rewrite Hidx'.
      destruct (decide (t ∈ p :: parts)) as [Ht|]; [| done].
      rewrite Hidx. by rewrite decide_True by done. }
    rewrite Hsame in Hl'.
    pose proof (get_postings_ok query docs index)
      as (c & i & Hq & _).
    unfold get_postings in Hq. rewrite Hsplit, bind_ok, Hl in Hq.
    exists c, index'.
    rewrite bind_ok. rewrite Hl, Hl'.
    destruct (map PySet.of_list _) as [|so args]; [done |].
    simpl in *. injection Hq as <- <-. done.
Qed.

(** ** search *)

Lemma mapM_result_raise {A B : Type} (f : A → result B) xs e :
  mapM_result f xs = Raise e → ∃ x, x ∈ xs ∧ f x = Raise e.
Proof.
  induction xs as [|x xs IH]; simpl; [done |].
  destruct (f x) as [y|e'] eqn:Hx.
  - rewrite bind_ok. destruct (mapM_result f xs) as [ys|e'']; [done |].
    intros [= ->]. destruct IH as (x' & Hin & Hx'); [done |].
    exists x'. split; [by right | done].
  - intros [= ->]. exists x. split; [by left | done].
Qed.

Lemma mapM_result_all {A B : Type} (f : A → result B) xs ys :
  mapM_result f xs = Ok ys → ∀ x, x ∈ xs → ∃ y, f x = Ok y.
Proof.
  revert ys. induction xs as [|x xs IH]; intros ys; simpl.
  - by intros _ x ?%elem_of_nil.
  - destruct (f x) as [y|e] eqn:Hx; [| done]. rewrite bind_ok.
    destruct (mapM_result f xs) as [ys'|e]; [| done].
    intros _ x' [->|Hin]%elem_of_cons; [eauto |]. by eapply IH.
Qed.

(** The sort key of [search] by cases: IndexError beyond the columns of the
    matrix, ValueError where the lexicon and the rows differ in number. *)
Lemma search_key_cases query lexicon tdmat w :
  match col ← Np2.column tdmat w; distance (build_vector query lexicon) col with
  | Ok _ => w < ncols tdmat ∧ length lexicon = length (rows tdmat)
  | Raise IndexError => ncols tdmat ≤ w
  | Raise ValueError =>
      w < ncols tdmat ∧ length lexicon ≠ length (rows tdmat)
  | Raise TypeError => False
  end.
Proof.
  unfold Np2.column. destruct (Nat.ltb_spec w (ncols tdmat)); [| done].
  rewrite bind_ok. unfold distance, Np2.dot.
  rewrite length_map, build_vector_length.
  destruct (Nat.eqb_spec (length lexicon) (length (rows tdmat))); done.
Qed.

(** X13: [search] on any lexicon, index and matrix. The candidates are always
    found. When it returns, the results rearrange the candidates, each is a
    column of the matrix and, if there is one, the matrix has a row per
    lexicon entry. It raises IndexError only if a candidate is beyond the
    columns, ValueError only if there is a candidate and the rows differ in
    number from the lexicon, and nothing else. *)
Theorem search_outcome (documents : list string) (query : string)
    (lexicon : list string) (index : gmap string (list nat))
    (tdmat : ndarray2) :
  ∃ candidates index',
    get_postings query documents (Some index) = Ok (candidates, Some index') ∧
    match search documents query lexicon index tdmat with
    | Ok (results, index'') =>
        index'' = index' ∧ results ≡ₚ PySet.to_list candidates ∧
        Forall (λ w, w < ncols tdmat) results ∧
        (results ≠ [] → length lexicon = length (rows tdmat))
    | Raise IndexError =>
        ∃ w, w ∈ PySet.to_list candidates ∧ ncols tdmat ≤ w
    | Raise ValueError =>
        PySet.to_list candidates ≠ [] ∧
        length lexicon ≠ length (rows tdmat)
    | Raise TypeError => False
    end.
Proof.
  destruct (get_postings_ok query documents index)
    as (candidates & index' & Hpost & _).
  exists candidates, index'. split; [done |].
  unfold search, get_hits. rewrite Hpost, bind_ok.
  set (key := λ w, col ← Np2.column tdmat w;
                   distance (build_vector query lexicon) col).
  assert (∀ w, match key w with
               | Ok _ => w < ncols tdmat ∧
                         length lexicon = length (rows tdmat)
               | Raise IndexError => ncols tdmat ≤ w
               | Raise ValueError =>
                   w < ncols tdmat ∧ length lexicon ≠ length (rows tdmat)
               | Raise TypeError => False
               end) as Hkey by (intros w; apply search_key_cases).
  destruct (mapM_result key (PySet.to_list candidates)) as [ks|e] eqn:Hks.
  - rewrite bind_ok.
    pose proof (mapM_result_all _ _ _ Hks) as Hall.
    destruct (PySorted.sorted F64.ltb (PySet.to_list candidates) key true)
      as [results|e] eqn:Hsorted.
    2: { unfold PySorted.sorted in Hsorted.
         by rewrite Hks, bind_ok in Hsorted. }
    rewrite bind_ok. simpl. apply sorted_perm in Hsorted.
    split_and!; [done | done | |].
    + apply Forall_forall. intros w Hw. rewrite Hsorted in Hw.
      destruct (Hall w Hw) as [k Hk]. specialize (Hkey w).
      rewrite Hk in Hkey. tauto.
    + intros Hne.
      destruct (PySet.to_list candidates) as [|w ws] eqn:Hc.
      { by apply Permutation_nil_r in Hsorted. }
      destruct (Hall w ltac:(left)) as [k Hk]. specialize (Hkey w).
      rewrite Hk in Hkey. tauto.
  - apply mapM_result_raise in Hks as (w & Hw & Hraise).
    specialize (Hkey w). rewrite Hraise in Hkey. simpl.
    destruct e; [| eauto | done].
    split; [| tauto]. intros Hnil. rewrite Hnil in Hw.
    by apply elem_of_nil in Hw.
Qed.

(** ** get_docs *)

Lemma get_docs_loop docs ids acc :
  match forM (λ idx ds, d ← getitem_doc docs idx; Ok (ds ++ [d])) ids acc with
  | Ok ds => ∃ tail, ds = acc ++ tail ∧
                     Forall2 (λ i d, docs !! i = Some d) ids tail
  | Raise e => e = IndexError ∧ ∃ i, i ∈ ids ∧ length docs ≤ i
  end.
Proof.
  revert acc. induction ids as [|i ids IH]; intros acc.
  - exists []. by rewrite app_nil_r.
  - rewrite forM_cons. cbn beta.
    destruct (docs !! i) as [d|] eqn:Hd.
    + assert (getitem_doc docs i = Ok d) as ->
        by (unfold getitem_doc; by rewrite Hd).
      rewrite !bind_ok. specialize (IH (acc ++ [d])).
      destruct (forM _ ids (acc ++ [d])) as [ds|e].
      * destruct IH as (tail & -> & Htail). exists (d :: tail).
        rewrite <- app_assoc. split; [done | by constructor].
      * destruct IH as (-> & j & Hj & Hlen). split; [done |].
        exists j. split; [by right | done].
    + assert (getitem_doc docs i = Raise IndexError) as ->
        by (unfold getitem_doc; by rewrite Hd).
      split; [done |]. exists i. split; [by left |].
      by apply lookup_ge_None.
Qed.

Lemma lookups_functional (docs : list string) ids ds ds' :
  Forall2 (λ i d, docs !! i = Some d) ids ds →
  Forall2 (λ i d, docs !! i = Some d) ids ds' → ds = ds'.
Proof.
  intros H. revert ds'. induction H as [|i d ids ds Hd _ IH]; intros ds' H'.
  - by apply Forall2_nil_inv_l in H'.
  - apply Forall2_cons_inv_l in H' as (d' & ds'' & Hd' & H' & ->).
    rewrite Hd in Hd'. injection Hd' as <-. f_equal. by apply IH.
Qed.

(** X14: [get_docs] returns the texts at the given identifiers, one for
    each and in their order, exactly when every identifier is below the
    number of documents; otherwise it raises, and only IndexError. *)
Theorem get_docs_spec (idx_list : list nat) (docs : list string) :
  (∀ ds, get_docs idx_list docs = Ok ds
         ↔ Forall2 (λ i d, docs !! i = Some d) idx_list ds) ∧
  (∀ e, get_docs idx_list docs = Raise e
        ↔ e = IndexError ∧ ∃ i, i ∈ idx_list ∧ length docs ≤ i).
Proof.
  pose proof (get_docs_loop docs idx_list []) as Hloop.
  unfold get_docs. destruct (forM _ idx_list []) as [ds|e].
  - destruct Hloop as (tail & -> & Htail). simpl. split.
    + intros ds. split; [by intros [= <-] |].
      intros Hds. f_equal. by eapply lookups_functional.
    + intros e. split; [done |]. intros (_ & i & Hi & Hlen).
      apply list_elem_of_lookup in Hi as [k Hk].
      destruct (Forall2_lookup_l _ _ _ _ _ Htail Hk) as (d & _ & Hd).
      apply lookup_lt_Some in Hd. lia.
  - destruct Hloop as (-> & i & Hi & Hlen). split.
    + intros ds. split; [done |]. intros Hds.
      apply list_elem_of_lookup in Hi as [k Hk].
      destruct (Forall2_lookup_l _ _ _ _ _ Hds Hk) as (d & _ & Hd).
      apply lookup_lt_Some in Hd. lia.
    + intros e. split; [intros [= <-]; eauto |]. by intros [-> _].
Qed.

Lemma lookups_positions (docs : list string) ids ds :
  Forall2 (λ i d, docs !! i = Some d) ids ds →
  (∀ x, x ∈ ids → ∃ d, docs !! x = Some d ∧ x = position docs d) →
  ids = map (position docs) ds.
Proof.
  induction 1 as [|i d ids ds Hd _ IH]; intros Hids; simpl; [done |].
  f_equal.
  - destruct (Hids i ltac:(left)) as (d' & Hd' & ->).
    rewrite Hd in Hd'. by injection Hd' as <-.
  - apply IH. intros x Hx. apply Hids. by right.
Qed.

(** X15: the last cell, [get_docs(search(query, ...), documents)] on what is
    built from one collection, raises nothing and returns, each once, the
    texts of the collection that have every query token as a token, the
    tokens being lexicon terms; none for a query without tokens; a text the
    collection repeats is returned once. When no token of the collection
    ends in a NUL byte these are the texts that have every query token. *)
Theorem run_get_docs_spec (docs : list string) (query : string) :
  ∃ ds,
    run_get_docs docs query = Ok ds ∧ NoDup ds ∧
    (∀ d, d ∈ ds ↔ d ∈ docs ∧ PyStr.split query ≠ [] ∧
                   ∀ t, t ∈ PyStr.split query →
                        t ∈ PyStr.split d ∧ t ∈ build_lexicon docs) ∧
    (plain_tokens docs = true →
     ∀ d, d ∈ ds ↔ d ∈ docs ∧ PyStr.split query ≠ [] ∧
                   ∀ t, t ∈ PyStr.split query → t ∈ PyStr.split d).
Proof.
  destruct (run_search_spec docs query)
    as (index & m & c & index' & results & Hidx & _ & Hpost & Hrun & Hperm & _).
  destruct (build_inverted_index_ok docs) as (index0 & Hidx0 & Hchar).
  rewrite Hidx in Hidx0. injection Hidx0 as <-.
  destruct (get_postings_ok query docs index)
    as (c0 & i0 & Hpost0 & Hnd & Hc & _).
  rewrite Hpost in Hpost0. injection Hpost0 as <- <-.
  assert (∀ x, x ∈ results →
               ∃ d, docs !! x = Some d ∧ x = position docs d) as Hres.
  { intros x Hx. rewrite Hperm in Hx. apply Hc in Hx as [Hne Hx].
    destruct (PyStr.split query) as [|t ts]; [done |].
    specialize (Hx t ltac:(left)). rewrite Hchar in Hx.
    destruct (decide _); simpl in Hx; [| by apply elem_of_nil in Hx].
    apply postings_elem in Hx as (d & _ & Hl & _ & Hp); eauto. }
  unfold run_get_docs. rewrite Hrun, bind_ok.
  pose proof (get_docs_loop docs results []) as Hloop.
  unfold get_docs. cbn beta iota.
  destruct (forM _ results []) as [ds|e].
  2: { destruct Hloop as (_ & i & Hi & Hlen).
       destruct (Hres i Hi) as (d & Hd%lookup_lt_Some & _). lia. }
  destruct Hloop as (tail & -> & Htail). rewrite app_nil_l.
  pose proof (lookups_positions _ _ _ Htail Hres) as Hpos.
  assert (∀ d, d ∈ tail → d ∈ docs) as Hin.
  { intros d [k Hk]%list_elem_of_lookup.
    destruct (Forall2_lookup_r _ _ _ _ _ Htail Hk) as (x & _ & Hx).
    by eapply list_elem_of_lookup_2. }
  assert (∀ d, d ∈ tail ↔ d ∈ docs ∧ PyStr.split query ≠ [] ∧
                         ∀ t, t ∈ PyStr.split query →
                              t ∈ PyStr.split d ∧ t ∈ build_lexicon docs)
    as Hspec.
  { intros d. split.
    + intros Hd. pose proof (Hin d Hd) as Hdocs.
      assert (position docs d ∈ PySet.to_list c) as Hcand.
      { rewrite <- Hperm, Hpos. apply list_elem_of_fmap. eauto. }
      apply Hc in Hcand as [Hne Hcand]. split_and!; [done | done |].
      intros t Ht.
      destruct (built_postings_sound docs index t _ Hchar (Hcand t Ht))
        as (d' & Hd' & Htok).
      destruct (index_ok docs d Hdocs) as (_ & Hat & _).
      rewrite Hat in Hd'. injection Hd' as <-. split; [done |].
      specialize (Hcand t Ht). rewrite Hchar in Hcand.
      destruct (decide (t ∈ build_lexicon docs)); [done |].
      by apply elem_of_nil in Hcand.
    + intros (Hdocs & Hne & Htok).
      assert (position docs d ∈ PySet.to_list c) as Hcand.
      { apply Hc. split; [done |]. intros t Ht. rewrite Hchar.
        destruct (Htok t Ht) as [Hsplit Hlex].
        rewrite decide_True by done. simpl. by apply postings_first. }
      rewrite <- Hperm, Hpos in Hcand.
      apply list_elem_of_fmap in Hcand as (d' & Heq & Hd').
      destruct (index_ok docs d Hdocs) as (_ & Hat & _).
      destruct (index_ok docs d' (Hin d' Hd')) as (_ & Hat' & _).
      rewrite Heq, Hat' in Hat. by injection Hat as <-. }
  exists tail. split_and!; [done | | done |].
  - apply (NoDup_fmap_1 (position docs)).
    change (NoDup (map (position docs) tail)).
    rewrite <- Hpos, Hperm. exact Hnd.
  - intros Hplain d. rewrite Hspec. split.
    + intros (Hdocs & Hne & Htok). split_and!; [done | done |].
      intros t Ht. by apply Htok.
    + intros (Hdocs & Hne & Htok). split_and!; [done | done |].
      intros t Ht. split; [by apply Htok |].
      eapply build_lexicon_token; [done | by apply Htok |].
      eapply plain_tokens_spec; [done | done | by apply Htok].
Qed.

(** ** Queries of one term *)

(** X16: for a collection none of whose tokens ends in a NUL byte, a
    lexicon term as the query gives the vector that is 1.0 at the position
    of the term and 0.0 everywhere else. *)
Theorem build_vector_term (docs : list string) (t : string) :
  plain_tokens docs = true → t ∈ build_lexicon docs →
  build_vector t (build_lexicon docs)
  = <[position (build_lexicon docs) t := F64.one]>
      (replicate (length (build_lexicon docs)) F64.zero).
Proof.
  intros Hplain Ht.
  pose proof (build_lexicon_items docs) as Hitems.
  rewrite Forall_forall in Hitems.
  unfold build_vector. rewrite (lexicon_term_tokens docs t) by done.
  cbn [foldl].
  pose proof (build_lexicon_nodup docs Hplain) as Hnd.
  set (l := build_lexicon docs) in *.
  destruct (index_ok l t Ht) as (_ & Hat & _).
  apply list_eq. intros i.
  destruct (l !! i) as [u|] eqn:Hu.
  - assert (i < length l) as Hi by by eapply lookup_lt_Some.
    erewrite mark_lookup; [| done | by apply lookup_replicate_2].
    rewrite (item_plain u) by (apply Hitems; by eapply list_elem_of_lookup_2).
    rewrite (item_plain t) by (by apply Hitems).
    destruct (String.eqb_spec u t) as [->|Hne'].
    + rewrite (position_nodup l i t) by done.
      by rewrite list_lookup_insert_eq by by rewrite length_replicate.
    + rewrite list_lookup_insert_ne.
      * by rewrite lookup_replicate_2.
      * intros <-. rewrite Hat in Hu. by injection Hu.
  - apply lookup_ge_None in Hu.
    rewrite !lookup_ge_None_2; [done | |].
    + by rewrite length_insert, length_replicate.
    + rewrite mark_length; [done | apply length_replicate].
Qed.

Lemma build_vector_term_witness :
  plain_tokens ["the cat"; "a dog"] = true ∧
  "cat" ∈ build_lexicon ["the cat"; "a dog"] ∧
  build_vector "cat" (build_lexicon ["the cat"; "a dog"])
  = <[position (build_lexicon ["the cat"; "a dog"]) "cat" := F64.one]>
      (replicate (length (build_lexicon ["the cat"; "a dog"])) F64.zero).
Proof.
  assert (plain_tokens ["the cat"; "a dog"] = true) as Hplain by reflexivity.
  assert ("cat" ∈ build_lexicon ["the cat"; "a dog"]) as Ht.
  { change (build_lexicon ["the cat"; "a dog"]) with ["a"; "cat"; "dog"; "the"].
    right. left. }
  split_and!; [exact Hplain | exact Ht |].
  exact (build_vector_term _ _ Hplain Ht).
Defined.
